(** * ChatPage: the chat client of voosh-rag-frontend

    A shallow embedding of [src/ChatPage.jsx]: the React state of the
    [ChatPage] component, its event handlers ([handleSend],
    [handleResetSession]), the mount effect with [fetchHistory], and the
    timer callback [typeNextChar] of the typing animation.

    Conventions of the embedding.
    - A JavaScript string is the list of its UTF-16 code units.
    - The component state is one record; every [setX] of the source is the
      record update of the same name.  A handler reads [input], [messages]
      and [sessionId] from the render it was created in, that is from the
      state at the moment the event is dispatched, and keeps those values
      across its [await]s.
    - An [async] function is cut at its [await]s and timers: each piece runs
      to completion, and the values a later piece needs are carried in a
      closure record.  What the network answers is an input of the piece
      that resumes. *)

From Stdlib Require Import NArith Lia String Ascii.
From stdpp Require Import base tactics option numbers list strings.

Open Scope N_scope.
Open Scope list_scope.

(** ** JavaScript strings *)

Abbreviation jsstring := (list N).

(** A string literal of the source. *)
Definition lit (s : string) : jsstring :=
  N_of_ascii <$> list_ascii_of_string s.

(** ECMAScript WhiteSpace and LineTerminator code units, the ones
    [String.prototype.trim] strips. *)
Definition is_js_whitespace (c : N) : bool :=
  (c =? 0x09) || (c =? 0x0A) || (c =? 0x0B) || (c =? 0x0C) || (c =? 0x0D)
  || (c =? 0x20) || (c =? 0xA0) || (c =? 0x1680)
  || ((0x2000 <=? c) && (c <=? 0x200A))
  || (c =? 0x2028) || (c =? 0x2029) || (c =? 0x202F) || (c =? 0x205F)
  || (c =? 0x3000) || (c =? 0xFEFF).

Fixpoint trimStart (s : jsstring) : jsstring :=
  match s with
  | c :: s' => if is_js_whitespace c then trimStart s' else s
  | [] => []
  end.

Definition trimEnd (s : jsstring) : jsstring :=
  reverse (trimStart (reverse s)).

(** [s.trim()] *)
Definition trim (s : jsstring) : jsstring := trimEnd (trimStart s).

(** [!s] for a string [s]: only the empty string is falsy. *)
Definition js_not (s : jsstring) : bool := bool_decide (s = []).

(** ** Numbers: [Math.floor(100000 + Math.random() * 900000).toString()]

    A Number is an IEEE 754 binary64.  The finite non-negative ones are
    written [mant * 2^expo]; a product and a sum are the exact results
    rounded to the nearest binary64, ties to even.  The draw of
    [Math.random()] is given by its binary64 encoding. *)

Fixpoint digits_rev (fuel : nat) (n : N) : jsstring :=
  match fuel with
  | O => []
  | S fuel' =>
      (48 + n mod 10)
        :: (if n / 10 =? 0 then [] else digits_rev fuel' (n / 10))
  end.

(** [n.toString()] for a non-negative integer [n]: its decimal digits. *)
Definition toString (n : N) : jsstring :=
  reverse (digits_rev (S (N.to_nat (N.log2 n))) n).

Record dyadic := mkDyadic { mant : Z; expo : Z }.

(** The Number with the encoding [b] (sign bit clear): eleven bits of
    biased exponent above fifty-two bits of fraction, subnormal when the
    exponent field is zero. *)
Definition decode64 (b : N) : dyadic :=
  let E := Z.of_N (b / 2 ^ 52) in
  let F := Z.of_N (b mod 2 ^ 52) in
  if (E =? 0)%Z then mkDyadic F (-1074)
  else mkDyadic (2 ^ 52 + F) (E - 1075).

(** The encodings of the Numbers in [0, 1), the range of
    [Math.random()]: those below the encoding of [1]. *)
Definition is_draw (b : N) : Prop := b < 0x3FF0000000000000.

(** The integer nearest to [a / 2^shift], the even one of two equally
    near. *)
Definition round_shift (a shift : Z) : Z :=
  if (shift <=? 0)%Z then (a * 2 ^ (- shift))%Z
  else
    let k := (a / 2 ^ shift)%Z in
    let rest := (a mod 2 ^ shift)%Z in
    let half := (2 ^ (shift - 1))%Z in
    if (rest <? half)%Z then k
    else if (half <? rest)%Z then (k + 1)%Z
    else if Z.even k then k else (k + 1)%Z.

(** Rounding to binary64 (below the overflow threshold): fifty-three
    significant bits, the last place no finer than [2^-1074]. *)
Definition round64 (x : dyadic) : dyadic :=
  let q := Z.max (Z.log2 (mant x) + 1 + expo x - 53) (-1074) in
  mkDyadic (round_shift (mant x) (q - expo x)) q.

(** [x * y] and [x + y] on Numbers. *)
Definition mul64 (x y : dyadic) : dyadic :=
  round64 (mkDyadic (mant x * mant y) (expo x + expo y)).

Definition add64 (x y : dyadic) : dyadic :=
  let e := Z.min (expo x) (expo y) in
  round64
    (mkDyadic (mant x * 2 ^ (expo x - e) + mant y * 2 ^ (expo y - e)) e).

(** An integer literal below [2^53]. *)
Definition of_int (n : Z) : dyadic := mkDyadic n 0.

(** [Math.floor] of a non-negative Number. *)
Definition floor64 (x : dyadic) : Z :=
  if (0 <=? expo x)%Z then (mant x * 2 ^ expo x)%Z
  else (mant x / 2 ^ (- expo x))%Z.

(** [Math.floor(100000 + Math.random() * 900000)], for the draw with the
    encoding [m]. *)
Definition random_floor (m : N) : N :=
  Z.to_N
    (floor64 (add64 (of_int 100000) (mul64 (decode64 m) (of_int 900000)))).

(** A Number in units of [2^-1074], an integer for every binary64. *)
Definition scaled (x : dyadic) : Z := (mant x * 2 ^ (expo x + 1074))%Z.

(** The floor of [100000 + r * 900000] without any rounding, for the draw
    [r] with the encoding [m]. *)
Definition exact_floor (m : N) : Z :=
  ((100000 * 2 ^ 1074 + 900000 * scaled (decode64 m)) / 2 ^ 1074)%Z.

Definition newSessionId (m : N) : jsstring := toString (random_floor m).

Definition is_digit (c : N) : bool := (48 <=? c) && (c <=? 57).

(** ** Messages and the component state *)

(** An entry of the transcript, in its wire shape: an object with a string
    [role] and a string [content].  The page compares [role] with
    ["assistant"] and ["user"] and accepts any other string. *)
Record Message := mkMessage { role : jsstring; content : jsstring }.

#[global] Instance Message_eq_dec : EqDecision Message.
Proof. solve_decision. Defined.

Definition user_msg (c : jsstring) : Message := mkMessage (lit "user") c.
Definition assistant_msg (c : jsstring) : Message :=
  mkMessage (lit "assistant") c.

(** The five [useState] cells of [ChatPage], and the [localStorage] entry
    under the key ["sessionId"] ([None]: [getItem] returns [null]). *)
Record Client := mkClient {
  sessionId : jsstring;
  messages : list Message;
  input : jsstring;
  loading : bool;
  error : jsstring;
  stored : option jsstring
}.

#[global] Instance Client_eq_dec : EqDecision Client.
Proof. solve_decision. Defined.

Definition setSessionId (v : jsstring) (s : Client) : Client :=
  mkClient v (messages s) (input s) (loading s) (error s) (stored s).
Definition setMessages (v : list Message) (s : Client) : Client :=
  mkClient (sessionId s) v (input s) (loading s) (error s) (stored s).
Definition setInput (v : jsstring) (s : Client) : Client :=
  mkClient (sessionId s) (messages s) v (loading s) (error s) (stored s).
Definition setLoading (v : bool) (s : Client) : Client :=
  mkClient (sessionId s) (messages s) (input s) v (error s) (stored s).
Definition setError (v : jsstring) (s : Client) : Client :=
  mkClient (sessionId s) (messages s) (input s) (loading s) v (stored s).
Definition setItem (v : jsstring) (s : Client) : Client :=
  mkClient (sessionId s) (messages s) (input s) (loading s) (error s) (Some v).

(** The state of the first render. *)
Definition first_render (ls : option jsstring) : Client :=
  mkClient [] [] [] false [] ls.

(** ** What the backend answers *)

(** A [Response] object: its status, what [res.text()] resolves to
    ([None]: it rejects) and what [res.json()] gives.  For [json], [None]
    stands for a body from which [data.history] cannot be read ([res.json()]
    rejects, or the body is the JSON [null]); [Some None] for a [data]
    whose [history] is absent or [null]; [Some (Some h)] for a [data] whose
    [history] is the array [h]. *)
Record Response := mkResponse {
  status : N;
  text : option jsstring;
  json : option (option (list Message))
}.

(** [res.ok] *)
Definition ok (res : Response) : bool :=
  (200 <=? status res) && (status res <=? 299).

(** The settlement of a [fetch]: rejected, or resolved with a response. *)
Inductive Fetched := Rejected | Resolved (res : Response).

(** What [await fetch(...)] gives: [None] when it throws. *)
Definition settlement (f : Fetched) : option Response :=
  match f with Rejected => None | Resolved res => Some res end.

(** The [data.history] of a settlement, where there is one. *)
Definition response_history (f : Fetched) : option (list Message) :=
  match f with
  | Resolved res => default None (json res)
  | Rejected => None
  end.

(** ** Handler pieces: state, early return and exceptions *)

Inductive completion (A : Type) :=
| Normal (a : A)
| Returned
| Threw.
Arguments Normal {A} a.
Arguments Returned {A}.
Arguments Threw {A}.

Definition Act (A : Type) : Type := Client -> Client * completion A.

Definition ret {A} (a : A) : Act A := fun s => (s, Normal a).
Definition bind {A B} (m : Act A) (k : A -> Act B) : Act B :=
  fun s =>
    match m s with
    | (s', Normal a) => k a s'
    | (s', Returned) => (s', Returned)
    | (s', Threw) => (s', Threw)
    end.
Definition do_return {A} : Act A := fun s => (s, Returned).
Definition throw {A} : Act A := fun s => (s, Threw).
Definition read : Act Client := fun s => (s, Normal s).
Definition update (f : Client -> Client) : Act unit := fun s => (f s, Normal tt).

(** [await p] where [p] settles to [o]: [None] is a rejection. *)
Definition await {A} (o : option A) : Act A :=
  match o with Some a => ret a | None => throw end.

(** [try { body } catch { handler } finally { fin }]: when [body] throws,
    [handler] runs and the statement completes normally, without a value
    ([None]); [fin] runs however [body] completes.  The handlers of the
    source never throw and their [finally] blocks never return. *)
Definition try_catch_finally {A} (body : Act A) (handler : Act unit)
    (fin : Act unit) : Act (option A) :=
  fun s =>
    match body s with
    | (s', Normal a) => (fst (fin s'), Normal (Some a))
    | (s', Returned) => (fst (fin s'), Returned)
    | (s', Threw) => (fst (fin (fst (handler s'))), Normal None)
    end.

Definition try_catch {A} (body : Act A) (handler : Act unit) : Act (option A) :=
  try_catch_finally body handler (ret ()).

#[global] Instance Act_ret : MRet Act := @ret.
#[global] Instance Act_bind : MBind Act := fun A B k m => bind m k.

(** ** The typing animation *)

(** What [typeNextChar] closes over: [optimistic], [typedBot.content],
    [index], [fullText] and [fullHistory]. *)
Record Typing := mkTyping {
  ty_optimistic : list Message;
  ty_typed : jsstring;
  ty_index : nat;
  ty_fullText : jsstring;
  ty_fullHistory : list Message
}.

#[global] Instance Typing_eq_dec : EqDecision Typing.
Proof. solve_decision. Defined.

(** [typeNextChar]: the result is the closure of the timer it arms with
    [setTimeout(typeNextChar, 5)], if it arms one.  [fullText !! index] is
    [Some] exactly when [index < fullText.length]. *)
Definition typeNextChar (t : Typing) : Act (option Typing) :=
  match ty_fullText t !! ty_index t with
  | Some ch =>
      let typed := ty_typed t ++ [ch] in
      let index := S (ty_index t) in
      update (setMessages (ty_optimistic t ++ [assistant_msg typed]));;
      ret (Some (mkTyping (ty_optimistic t) typed index (ty_fullText t)
                   (ty_fullHistory t)))
  | None =>
      update (setMessages (ty_fullHistory t));;
      ret None
  end.

(** ** handleSend *)

Definition overloaded_message : jsstring :=
  lit "Gemini API is overloaded. Please try again in a few seconds.".
Definition generic_message : jsstring :=
  lit "Something went wrong. Please try again.".
Definition network_message : jsstring :=
  lit "Network error. Please try again.".

(** What the part of [handleSend] after [await fetch] closes over, and the
    body of the request it posted. *)
Record Sending := mkSending {
  previousMessages : list Message;
  optimistic : list Message;
  req_sessionId : jsstring;
  req_userMessage : jsstring
}.

#[global] Instance Sending_eq_dec : EqDecision Sending.
Proof. solve_decision. Defined.

(** [handleSend] up to the call of [fetch]: the result is the request in
    flight, if one is issued. *)
Definition handleSend_submit : Act Sending :=
  r ← read;
  if js_not (trim (input r)) || js_not (sessionId r) then do_return
  else
    update (setError []);;
    update (setLoading true);;
    let previousMessages := messages r in
    let userMsg := mkMessage (lit "user") (input r) in
    let optimistic := messages r ++ [userMsg] in
    update (setMessages optimistic);;
    ret (mkSending previousMessages optimistic (sessionId r) (input r)).

(** The [try] block of [handleSend] once [fetch] has settled to [f]. *)
Definition handleSend_try (c : Sending) (f : Fetched) : Act (option Typing) :=
  res ← await (settlement f);
  if negb (ok res) then
    _ ← await (text res);
    update (setMessages (previousMessages c));;
    (if status res =? 503
     then update (setError overloaded_message)
     else update (setError generic_message));;
    update (setLoading false);;
    do_return
  else
    history ← await (json res);
    let fullHistory := default (optimistic c) history in
    let lastBot := last fullHistory in
    match lastBot with
    | None =>
        update (setMessages fullHistory);; update (setLoading false);; do_return
    | Some lastBot =>
        if bool_decide (role lastBot ≠ lit "assistant") then
          update (setMessages fullHistory);; update (setLoading false);; do_return
        else
          let fullText := content lastBot in
          update (setMessages (optimistic c ++ [assistant_msg []]));;
          timer ← typeNextChar
                     (mkTyping (optimistic c) [] 0 fullText fullHistory);
          update (setInput []);;
          mret timer
    end.

(** [handleSend] from the settlement of [fetch] to its end. *)
Definition handleSend_settle (c : Sending) (f : Fetched)
    : Act (option (option Typing)) :=
  try_catch_finally
    (handleSend_try c f)
    (update (setMessages (previousMessages c));;
     update (setError network_message))
    (update (setLoading false)).

(** The state a piece leaves, the timer it armed and the request it issued. *)
Definition state_of {A} (r : Client * completion A) : Client := fst r.
Definition timer_of (r : Client * completion (option (option Typing)))
    : option Typing :=
  match snd r with Normal (Some t) => t | _ => None end.
Definition request_of (r : Client * completion Sending) : option Sending :=
  match snd r with Normal c => Some c | _ => None end.

(** ** fetchHistory and the mount effect *)

(** [fetchHistory] once its [fetch] has settled to [f]. *)
Definition fetchHistory_settle (f : Fetched) : Act (option unit) :=
  try_catch
    (res ← await (settlement f);
     if negb (ok res) then do_return
     else
       history ← await (json res);
       update (setMessages (default [] history)))
    (ret ()).

(** The first [useEffect], up to the [fetch] of [fetchHistory]; [m] is the
    draw of [Math.random()].  The result is the id whose history is asked. *)
Definition mount_effect (m : N) : Act jsstring :=
  r ← read;
  let fresh :=
    let v := newSessionId m in
    update (setItem v);; mret v in
  stored ← match stored r with
           | Some v => if js_not v then fresh else mret v
           | None => fresh
           end;
  update (setSessionId stored);;
  mret stored.

(** ** handleResetSession *)

(** Steps 2 to 4 of [handleResetSession]; [m] is the draw of
    [Math.random()]. *)
Definition handleResetSession_rest (m : N) : Act unit :=
  let newId := newSessionId m in
  update (setItem newId);;
  update (setSessionId newId);;
  update (setMessages []);;
  update (setError []).

(** The whole of [handleResetSession], the clear request settling to
    [clear] when it is made. *)
Definition handleResetSession (clear : Fetched) (m : N) : Act unit :=
  r ← read;
  try_catch
    (if js_not (sessionId r) then mret ()
     else _ ← await (settlement clear); mret ())
    (ret ());;
  handleResetSession_rest m.

(** ** The page as a transition system *)

(** The component state together with what is outstanding: whether the
    history request of the mount effect is unanswered, the chat requests in
    flight, the armed animation timers, and the number of unanswered clear
    requests. *)
Record World := mkWorld {
  client : Client;
  history_pending : bool;
  sends : list Sending;
  timers : list Typing;
  clears : nat
}.

Inductive Event :=
| Typed (v : jsstring)
| Submit
| ChatSettled (i : nat) (f : Fetched)
| Tick (j : nat)
| ResetClick (m : N)
| ClearSettled (f : Fetched) (m : N)
| HistorySettled (f : Fetched).

(** The [disabled] attribute of the send button. *)
Definition send_disabled (s : Client) : bool :=
  loading s || js_not (trim (input s)).

(** The page after the first render and its mount effect. *)
Definition boot (ls : option jsstring) (m : N) : World :=
  mkWorld (state_of (mount_effect m (first_render ls))) true [] [] 0.

Definition with_client (s : Client) (w : World) : World :=
  mkWorld s (history_pending w) (sends w) (timers w) (clears w).

Definition step (w : World) (e : Event) : option World :=
  match e with
  | Typed v => Some (with_client (setInput v (client w)) w)
  | Submit =>
      if send_disabled (client w) then None
      else
        let r := handleSend_submit (client w) in
        Some (mkWorld (state_of r) (history_pending w)
                (sends w ++ option_list (request_of r)) (timers w) (clears w))
  | ChatSettled i f =>
      c ← sends w !! i;
      let r := handleSend_settle c f (client w) in
      Some (mkWorld (state_of r) (history_pending w)
              (delete i (sends w)) (timers w ++ option_list (timer_of r))
              (clears w))
  | Tick j =>
      t ← timers w !! j;
      let r := typeNextChar t (client w) in
      Some (mkWorld (state_of r) (history_pending w) (sends w)
              (match snd r with
               | Normal (Some t') => <[j := t']> (timers w)
               | _ => delete j (timers w)
               end)
              (clears w))
  | ResetClick m =>
      if js_not (sessionId (client w))
      then Some (with_client (state_of (handleResetSession_rest m (client w))) w)
      else Some (mkWorld (client w) (history_pending w) (sends w) (timers w)
                   (S (clears w)))
  | ClearSettled f m =>
      match clears w with
      | O => None
      | S n =>
          Some (mkWorld (state_of (handleResetSession_rest m (client w)))
                  (history_pending w) (sends w) (timers w) n)
      end
  | HistorySettled f =>
      if history_pending w
      then Some (mkWorld (state_of (fetchHistory_settle f (client w))) false
                   (sends w) (timers w) (clears w))
      else None
  end.

(** A chat request succeeds when a response with a success status arrives
    and its body can be read. *)
Definition succeeded (f : Fetched) : bool :=
  match f with
  | Resolved res => ok res && bool_decide (is_Some (json res))
  | Rejected => false
  end.

(** The transcript a successful chat response makes the client adopt:
    [data.history || optimistic]. *)
Definition adopted (c : Sending) (f : Fetched) : list Message :=
  default (optimistic c) (response_history f).

(** The last settled transcript, a ghost of the runs: empty at first and
    after a reset, the fetched history once it arrives, and the transcript
    adopted from a chat response once it is displayed whole (at once when no
    animation runs, at the end of the animation otherwise). *)
Definition settled (w : World) (e : Event) (auth : list Message)
    : list Message :=
  match e with
  | HistorySettled (Resolved res) =>
      if ok res then
        match json res with Some h => default [] h | None => auth end
      else auth
  | ChatSettled i f =>
      match sends w !! i with
      | Some c =>
          if succeeded f then
            match timer_of (handleSend_settle c f (client w)) with
            | Some _ => auth
            | None => adopted c f
            end
          else auth
      | None => auth
      end
  | Tick j =>
      match timers w !! j with
      | Some t =>
          match ty_fullText t !! ty_index t with
          | Some _ => auth
          | None => ty_fullHistory t
          end
      | None => auth
      end
  | ResetClick _ => if js_not (sessionId (client w)) then [] else auth
  | ClearSettled _ _ => []
  | _ => auth
  end.

Fixpoint run (w : World) (auth : list Message) (tr : list Event)
    : option (World * list Message) :=
  match tr with
  | [] => Some (w, auth)
  | e :: tr' =>
      w' ← step w e;
      run w' (settled w e auth) tr'
  end.

(** Nothing is outstanding. *)
Definition quiet (w : World) : bool :=
  negb (history_pending w) && bool_decide (sends w = [])
  && bool_decide (timers w = []) && bool_decide (clears w = 0%nat).

(** No chat request is in flight and no animation runs. *)
Definition no_send (w : World) : bool :=
  bool_decide (sends w = []) && bool_decide (timers w = []).

(** Operations in turn: a send starts only when nothing is outstanding, a
    reset only when no send is in flight or being animated. *)
Definition in_turn (w : World) (e : Event) : bool :=
  match e with
  | Submit => quiet w
  | ResetClick _ => no_send w
  | _ => true
  end.

Fixpoint run_in_turn (w : World) (auth : list Message) (tr : list Event)
    : option (World * list Message) :=
  match tr with
  | [] => Some (w, auth)
  | e :: tr' =>
      if in_turn w e then
        w' ← step w e;
        run_in_turn w' (settled w e auth) tr'
      else None
  end.

(** The shapes the displayed transcript may have around the last settled
    one. *)
Definition displays (auth msgs : list Message) : Prop :=
  msgs = auth
  ∨ (∃ c, msgs = auth ++ [user_msg c])
  ∨ (∃ c p, msgs = auth ++ [user_msg c; assistant_msg p]).

(** ** One send, from the submit to the end of the animation *)

(** [n] firings of the animation timer, as long as it is armed. *)
Fixpoint run_timer (n : nat) (s : Client) (t : option Typing)
    : Client * option Typing :=
  match n, t with
  | S n', Some ty =>
      let r := typeNextChar ty s in
      run_timer n' (state_of r)
        (match snd r with Normal t' => t' | _ => None end)
  | _, _ => (s, t)
  end.

(** The number of timer firings an animation arms at most. *)
Definition ticks_left (t : option Typing) : nat :=
  match t with
  | Some ty => S (length (ty_fullText ty) - ty_index ty)
  | None => 0
  end.

(** [sendMessage]: the submit, the response [f], and the animation run to
    its end, with nothing else in between. *)
Definition sendMessage (f : Fetched) (s : Client) : Client * option Typing :=
  let r := handleSend_submit s in
  match request_of r with
  | Some c =>
      let r' := handleSend_settle c f (state_of r) in
      run_timer (ticks_left (timer_of r')) (state_of r') (timer_of r')
  | None => (state_of r, None)
  end.

(** The two kinds of failure of a chat request: a response with a
    non-success status, whose text is read and logged, and an exception
    (the [fetch] rejects, or the body of the response cannot be read). *)
Inductive Failure := NonSuccess (st : N) | Exception.

Definition failure_of (f : Fetched) : option Failure :=
  match f with
  | Rejected => Some Exception
  | Resolved res =>
      if ok res then
        match json res with Some _ => None | None => Some Exception end
      else
        match text res with
        | Some _ => Some (NonSuccess (status res))
        | None => Some Exception
        end
  end.

Definition failure_message (k : Failure) : jsstring :=
  match k with
  | NonSuccess st => if st =? 503 then overloaded_message else generic_message
  | Exception => network_message
  end.

(** ** Scenarios *)

(** A page with session ["123456"], one exchange on display, and the text
    ["news?"] typed in. *)
Definition greeting : list Message :=
  [user_msg (lit "hi"); assistant_msg (lit "hello")].
Definition asking : Client :=
  mkClient (lit "123456") greeting (lit "news?") false [] (Some (lit "123456")).
Definition asking_request : Sending :=
  mkSending greeting (greeting ++ [user_msg (lit "news?")]) (lit "123456")
    (lit "news?").
Definition asked : Client := state_of (handleSend_submit asking).

(** The backend's answer: the transcript with the question and a reply. *)
Definition answered : list Message :=
  greeting ++ [user_msg (lit "news?"); assistant_msg (lit "Top story")].
Definition answer : Response := mkResponse 200 None (Some (Some answered)).
(** A success response without a [history] field. *)
Definition bare_answer : Response := mkResponse 200 None (Some None).
(** A success response whose transcript stops at the question. *)
Definition echo_answer : Response :=
  mkResponse 200 None (Some (Some (greeting ++ [user_msg (lit "news?")]))).
Definition overloaded : Response := mkResponse 503 (Some (lit "busy")) None.

(** ** Invariants and statements about runs *)

(** What has been typed so far is the first [index] characters of the
    text. *)
Definition typing_ok (t : Typing) : Prop :=
  ty_typed t = take (ty_index t) (ty_fullText t).

(** What holds of a page whose operations take turns: nothing but a fetch of
    the history or a clear request is outstanding and the settled
    transcript is on display; or one chat request is in flight, made from
    the settled transcript; or one animation runs, started from the settled
    transcript and one user message. *)
Inductive orderly (w : World) (auth : list Message) : Prop :=
| orderly_settled :
    sends w = [] -> timers w = [] -> messages (client w) = auth ->
    orderly w auth
| orderly_sending (c : Sending) :
    sends w = [c] -> timers w = [] ->
    history_pending w = false -> clears w = 0%nat ->
    previousMessages c = auth ->
    optimistic c = auth ++ [user_msg (req_userMessage c)] ->
    messages (client w) = optimistic c ->
    orderly w auth
| orderly_typing (t : Typing) (u : jsstring) :
    sends w = [] -> timers w = [t] ->
    history_pending w = false -> clears w = 0%nat ->
    ty_optimistic t = auth ++ [user_msg u] ->
    messages (client w) = ty_optimistic t ++ [assistant_msg (ty_typed t)] ->
    orderly w auth.

(** The invariant of the displayed transcript, over a notion of run: in
    every state a run reaches the displayed transcript has one of the allowed
    shapes around the last settled transcript, and a chat request that
    fails there leaves the last settled transcript on display. *)
Definition transcript_invariant
    (runs : World -> list Message -> list Event
            -> option (World * list Message)) : Prop :=
  forall (ls : option jsstring) (m : N) (tr : list Event) (w : World)
         (auth : list Message),
    runs (boot ls m) [] tr = Some (w, auth) ->
    displays auth (messages (client w))
    /\ forall (i : nat) (f : Fetched) (w' : World),
         succeeded f = false ->
         step w (ChatSettled i f) = Some w' ->
         messages (client w') = auth.

(** A second send, submitted while the reply to the first is still being
    typed: the send button is enabled again as soon as the response has
    arrived. *)
Definition overlapping_sends : list Event :=
  [ HistorySettled (Resolved (mkResponse 200 None (Some (Some greeting))));
    Typed (lit "news?"); Submit; ChatSettled 0 (Resolved answer);
    Typed (lit "more"); Submit ].

Definition overlapped : list Message :=
  greeting ++ [user_msg (lit "news?"); assistant_msg (lit "T");
               user_msg (lit "more")].

(** One send with its operations in turn, stopped while the reply is
    being typed, and the page it leaves. *)
Definition taking_turns : list Event :=
  [ HistorySettled (Resolved (mkResponse 200 None (Some (Some greeting))));
    Typed (lit "news?"); Submit; ChatSettled 0 (Resolved answer);
    Tick 0; Tick 0 ].

Definition mid_reply : World :=
  Eval vm_compute in
    match run_in_turn (boot (Some (lit "123456")) 0) [] taking_turns with
    | Some (w, _) => w
    | None => boot None 0
    end.

(** What a run ends with: the displayed transcript and the last settled
    one. *)
Definition outcome (r : option (World * list Message))
    : option (list Message * list Message) :=
  match r with
  | Some (w, auth) => Some (messages (client w), auth)
  | None => None
  end.

(** The all-or-nothing reading of a send: a send with non-blank text and a
    session leaves the transcript extended by one user message and one
    assistant message when the request succeeds, and as it was when the
    request fails. *)
Definition send_all_or_nothing : Prop :=
  forall (s : Client) (f : Fetched),
    trim (input s) ≠ [] -> sessionId s ≠ [] ->
    (succeeded f = true
     /\ exists reply,
          messages (fst (sendMessage f s)) =
            messages s ++ [user_msg (input s); assistant_msg reply])
    \/ (succeeded f = false /\ messages (fst (sendMessage f s)) = messages s).

(** A response with status 503 whose body cannot be read. *)
Definition unreadable_overload : Response := mkResponse 503 None None.

(** The reading of a failed send by the status alone: roll-back, loading
    flag down, no timer, and the overload message whenever the status is
    503, the generic or the network message for every other failure. *)
Definition failure_shows_by_status : Prop :=
  forall (s s' : Client) (c : Sending) (f : Fetched),
    request_of (handleSend_submit s) = Some c ->
    succeeded f = false ->
    messages (state_of (handleSend_settle c f s')) = messages s
    /\ loading (state_of (handleSend_settle c f s')) = false
    /\ timer_of (handleSend_settle c f s') = None
    /\ match f with
       | Resolved res =>
           if status res =? 503
           then error (state_of (handleSend_settle c f s')) = overloaded_message
           else error (state_of (handleSend_settle c f s')) = generic_message
                \/ error (state_of (handleSend_settle c f s')) = network_message
       | Rejected =>
           error (state_of (handleSend_settle c f s')) = generic_message
           \/ error (state_of (handleSend_settle c f s')) = network_message
       end.

(** ** The rendered page *)

(** One [message-row]: whether it carries the [--user] classes, its label
    and its text. *)
Record Row := mkRow {
  row_user : bool;
  row_label : jsstring;
  row_content : jsstring
}.

(** What the JSX of [ChatPage] puts on the page: the session id of the
    header, whether the [chat-empty-state] hint is there, the message rows,
    whether the [chat-loading] line is there, the text of the [chat-error]
    box if there is one, the value of the input, and the [disabled]
    attribute of the send button. *)
Record View := mkView {
  view_session : jsstring;
  view_empty_state : bool;
  view_rows : list Row;
  view_loading : bool;
  view_error : option jsstring;
  view_input : jsstring;
  view_send_disabled : bool
}.

(** The body of [messages.map]. *)
Definition render_row (msg : Message) : Row :=
  let isUser := bool_decide (role msg = lit "user") in
  mkRow isUser (if isUser then lit "You" else lit "Bot") (content msg).

Definition render (s : Client) : View :=
  mkView (sessionId s)
    (bool_decide (length (messages s) = 0%nat) && negb (loading s))
    (render_row <$> messages s)
    (loading s)
    (if js_not (error s) then None else Some (error s))
    (input s)
    (send_disabled s).

(** ** Further vocabulary *)

(** The number a string of decimal digits denotes. *)
Definition decimal_value (ds : jsstring) : N :=
  fold_left (fun acc d => 10 * acc + (d - 48)) ds 0.

(** The transcript ends in an assistant message: the test that sends
    [handleSend] into the typing animation. *)
Definition ends_with_reply (h : list Message) : bool :=
  match last h with
  | Some m => bool_decide (role m = lit "assistant")
  | None => false
  end.

(** What every armed timer satisfies: it has typed the first [index]
    characters of its text, at least one and at most all of them, and the
    transcript it will put on display ends in the assistant message with
    that text. *)
Definition timer_ok (t : Typing) : Prop :=
  typing_ok t
  /\ (1 <= ty_index t <= length (ty_fullText t))%nat
  /\ last (ty_fullHistory t) = Some (assistant_msg (ty_fullText t)).

(** The texts [setError] is ever given. *)
Definition error_texts : list jsstring :=
  [ []; overloaded_message; generic_message; network_message ].

(** The draws of [Math.random()] a run consumes are Numbers in [0, 1). *)
Definition draw_ok (e : Event) : Prop :=
  match e with
  | ResetClick m | ClearSettled _ m => is_draw m
  | _ => True
  end.

(** A string of six decimal digits. *)
Definition six_digits (v : jsstring) : Prop :=
  length v = 6%nat /\ Forall (fun c => is_digit c = true) v.

(** The session id is set and is the one in [localStorage]. *)
Definition session_kept (w : World) : Prop :=
  sessionId (client w) ≠ []
  /\ stored (client w) = Some (sessionId (client w)).

(** At most one chat request is in flight, and the loading flag is up
    exactly while one is. *)
Definition one_request (w : World) : Prop :=
  (sends w = [] /\ loading (client w) = false)
  \/ (exists c, sends w = [c] /\ loading (client w) = true).

(** The firings after which all the armed timers have run out. *)
Definition ticks_total (ts : list Typing) : nat :=
  sum_list (ticks_left <$> (Some <$> ts)).

(** * Properties *)

(** Unfolds the handler monad down to the record updates. *)
Ltac run_act :=
  unfold state_of, timer_of, request_of, try_catch, try_catch_finally,
    mbind, mret, Act_bind, Act_ret, bind, ret, read, update, do_return,
    throw, await; simpl.

(** ** Strings and numbers *)

Lemma trimStart_nil (s : jsstring) :
  trimStart s = [] <-> Forall (fun c => is_js_whitespace c = true) s.
Proof.
  induction s as [|c s IH]; simpl.
  - split; [constructor | reflexivity].
  - destruct (is_js_whitespace c) eqn:Hc.
    + rewrite IH. split; [by constructor | by inversion 1].
    + split; [discriminate | intros H; inversion H; subst; congruence].
Qed.

Lemma trimStart_head (s : jsstring) (c : N) (s' : jsstring) :
  trimStart s = c :: s' -> is_js_whitespace c = false.
Proof.
  induction s as [|d s IH]; simpl; [discriminate|].
  destruct (is_js_whitespace d) eqn:Hd; [exact IH|].
  intros [= -> _]. exact Hd.
Qed.

(** [s.trim()] is empty exactly when [s] consists of white space. *)
Lemma trim_nil (s : jsstring) :
  trim s = [] <-> Forall (fun c => is_js_whitespace c = true) s.
Proof.
  unfold trim, trimEnd. rewrite <- trimStart_nil. split.
  - intros H. apply (f_equal reverse) in H.
    rewrite reverse_involutive in H. change (reverse []) with (@nil N) in H.
    apply trimStart_nil in H. rewrite Forall_reverse in H.
    destruct (trimStart s) as [|c s'] eqn:E; [reflexivity|].
    apply trimStart_head in E. inversion H; congruence.
  - intros ->. reflexivity.
Qed.

Lemma digits_rev_digits (fuel : nat) (n : N) :
  Forall (fun c => is_digit c = true) (digits_rev fuel n).
Proof.
  revert n. induction fuel as [|fuel IH]; intros n; simpl; [constructor|].
  constructor.
  - unfold is_digit. assert (n mod 10 < 10) by (apply N.mod_lt; discriminate).
    generalize dependent (n mod 10). intros d Hd.
    apply andb_true_intro; split; apply N.leb_le; lia.
  - destruct (n / 10 =? 0); [constructor | apply IH].
Qed.

Lemma digits_rev_length (k fuel : nat) (n : N) :
  (k < fuel)%nat -> 10 ^ N.of_nat k <= n < 10 ^ N.of_nat (S k) ->
  length (digits_rev fuel n) = S k.
Proof.
  revert fuel n. induction k as [|k IH]; intros fuel n Hf Hn.
  - destruct fuel as [|fuel]; [lia|]. simpl.
    change (10 ^ N.of_nat 1) with 10 in Hn.
    rewrite (N.div_small n 10) by lia. reflexivity.
  - destruct fuel as [|fuel]; [lia|]. simpl digits_rev.
    rewrite !Nat2N.inj_succ, !N.pow_succ_r' in Hn.
    assert (10 ^ N.of_nat k <= n / 10 < 10 * 10 ^ N.of_nat k) as Hq.
    { split.
      - apply N.div_le_lower_bound; lia.
      - apply N.Div0.div_lt_upper_bound; lia. }
    assert (0 < 10 ^ N.of_nat k) by (apply N.neq_0_lt_0, N.pow_nonzero; lia).
    destruct (N.eqb_spec (n / 10) 0) as [E|_]; [lia|].
    simpl. f_equal. apply IH; [lia|].
    rewrite Nat2N.inj_succ, N.pow_succ_r'. exact Hq.
Qed.

(** ** Binary64 arithmetic *)

Section Binary64.
Local Open Scope Z_scope.

Lemma round_shift_le (a shift C : Z) :
  0 < shift -> a <= C * 2 ^ shift -> round_shift a shift <= C.
Proof.
  intros Hs Ha. unfold round_shift.
  destruct (Z.leb_spec shift 0) as [|_]; [lia|].
  assert (0 < 2 ^ shift) as Hw by (apply Z.pow_pos_nonneg; lia).
  assert (0 < 2 ^ (shift - 1)) as Hh by (apply Z.pow_pos_nonneg; lia).
  pose proof (Z.div_mod a (2 ^ shift) ltac:(lia)) as Hdm.
  pose proof (Z.mod_pos_bound a (2 ^ shift) Hw) as Hr.
  revert Hdm Hr. generalize (a / 2 ^ shift), (a mod 2 ^ shift).
  intros k r Hdm Hr.
  assert (k <= C) by nia.
  destruct (Z.ltb_spec r (2 ^ (shift - 1))); [assumption|].
  assert (k < C) by nia.
  destruct (Z.ltb_spec (2 ^ (shift - 1)) r); [lia|].
  destruct (Z.even k); lia.
Qed.

Lemma round_shift_ge (a shift C : Z) :
  0 < shift -> C * 2 ^ shift <= a -> C <= round_shift a shift.
Proof.
  intros Hs Ha. unfold round_shift.
  destruct (Z.leb_spec shift 0) as [|_]; [lia|].
  assert (0 < 2 ^ shift) as Hw by (apply Z.pow_pos_nonneg; lia).
  pose proof (Z.div_mod a (2 ^ shift) ltac:(lia)) as Hdm.
  pose proof (Z.mod_pos_bound a (2 ^ shift) Hw) as Hr.
  revert Hdm Hr. generalize (a / 2 ^ shift), (a mod 2 ^ shift).
  intros k r Hdm Hr.
  assert (C <= k) by nia.
  destruct (Z.ltb_spec r (2 ^ (shift - 1))); [assumption|].
  destruct (Z.ltb_spec (2 ^ (shift - 1)) r); [lia|].
  destruct (Z.even k); lia.
Qed.

Lemma round_shift_below_half (a shift C : Z) :
  0 < shift -> 2 * a < (2 * C + 1) * 2 ^ shift -> round_shift a shift <= C.
Proof.
  intros Hs Ha. unfold round_shift.
  destruct (Z.leb_spec shift 0) as [|_]; [lia|].
  assert (2 ^ shift = 2 * 2 ^ (shift - 1)) as Hw2.
  { rewrite <- Z.pow_succ_r by lia. f_equal. lia. }
  assert (0 < 2 ^ (shift - 1)) as Hh by (apply Z.pow_pos_nonneg; lia).
  pose proof (Z.div_mod a (2 ^ shift) ltac:(lia)) as Hdm.
  pose proof (Z.mod_pos_bound a (2 ^ shift) ltac:(lia)) as Hr.
  revert Hdm Hr. generalize (a / 2 ^ shift), (a mod 2 ^ shift).
  intros k r Hdm Hr. rewrite Hw2 in *.
  assert (k <= C) by nia.
  destruct (Z.ltb_spec r (2 ^ (shift - 1))); [assumption|].
  assert (k < C) by nia.
  destruct (Z.ltb_spec (2 ^ (shift - 1)) r); [lia|].
  destruct (Z.even k); lia.
Qed.


Lemma round64_expo_low (x : dyadic) : -1074 <= expo (round64 x).
Proof. unfold round64. simpl. lia. Qed.

Lemma scaled_round64_exact (x : dyadic) :
  -1074 <= expo x -> expo (round64 x) <= expo x ->
  scaled (round64 x) = scaled x.
Proof.
  intros He Hq. pose proof (round64_expo_low x) as Hl.
  unfold scaled, round64 in *. simpl in *.
  set (q := Z.max _ _) in *. unfold round_shift.
  destruct (Z.leb_spec (q - expo x) 0) as [_|]; [|lia].
  rewrite <- Z.mul_assoc, <- Z.pow_add_r by lia. do 2 f_equal. lia.
Qed.

(** A Number on the grid of the result lies on the same side of the
    rounded value as of the exact one. *)
Lemma round64_le (x : dyadic) (g t : Z) :
  -1074 <= expo x -> expo (round64 x) <= t ->
  scaled x <= g * 2 ^ (t + 1074) ->
  scaled (round64 x) <= g * 2 ^ (t + 1074).
Proof.
  intros He Ht Hx. pose proof (round64_expo_low x) as Hl.
  destruct (Z.le_gt_cases (expo (round64 x)) (expo x)) as [Hq|Hq].
  - by rewrite scaled_round64_exact.
  - unfold scaled, round64 in *. simpl in *.
    set (q := Z.max _ _) in *.
    assert (2 ^ (t + 1074) = 2 ^ (t - q) * 2 ^ (q - expo x) * 2 ^ (expo x + 1074))
      as Ept by (rewrite <- !Z.pow_add_r by lia; f_equal; lia).
    assert (2 ^ (q + 1074) = 2 ^ (q - expo x) * 2 ^ (expo x + 1074))
      as Epq by (rewrite <- !Z.pow_add_r by lia; f_equal; lia).
    assert (0 < 2 ^ (expo x + 1074)) as Hu by (apply Z.pow_pos_nonneg; lia).
    rewrite Ept in *. rewrite Epq.
    pose proof (round_shift_le (mant x) (q - expo x) (g * 2 ^ (t - q))
                  ltac:(lia)) as Hk.
    assert (0 < 2 ^ (q - expo x)) as Hw by (apply Z.pow_pos_nonneg; lia).
    revert Hx Hk Hu Hw.
    generalize (round_shift (mant x) (q - expo x)), (2 ^ (expo x + 1074)),
      (2 ^ (q - expo x)), (2 ^ (t - q)).
    intros k u w v Hx Hk Hu Hw.
    assert (k <= g * v) as Hkg.
    { apply Hk. apply (Z.mul_le_mono_pos_r _ _ u Hu). lia. }
    replace (g * (v * w * u)) with (g * v * (w * u)) by ring.
    apply Z.mul_le_mono_nonneg_r; [nia | exact Hkg].
Qed.

Lemma round64_ge (x : dyadic) (g t : Z) :
  -1074 <= expo x -> expo (round64 x) <= t ->
  g * 2 ^ (t + 1074) <= scaled x ->
  g * 2 ^ (t + 1074) <= scaled (round64 x).
Proof.
  intros He Ht Hx. pose proof (round64_expo_low x) as Hl.
  destruct (Z.le_gt_cases (expo (round64 x)) (expo x)) as [Hq|Hq].
  - by rewrite scaled_round64_exact.
  - unfold scaled, round64 in *. simpl in *.
    set (q := Z.max _ _) in *.
    assert (2 ^ (t + 1074) = 2 ^ (t - q) * 2 ^ (q - expo x) * 2 ^ (expo x + 1074))
      as Ept by (rewrite <- !Z.pow_add_r by lia; f_equal; lia).
    assert (2 ^ (q + 1074) = 2 ^ (q - expo x) * 2 ^ (expo x + 1074))
      as Epq by (rewrite <- !Z.pow_add_r by lia; f_equal; lia).
    assert (0 < 2 ^ (expo x + 1074)) as Hu by (apply Z.pow_pos_nonneg; lia).
    rewrite Ept in *. rewrite Epq.
    pose proof (round_shift_ge (mant x) (q - expo x) (g * 2 ^ (t - q))
                  ltac:(lia)) as Hk.
    assert (0 < 2 ^ (q - expo x)) as Hw by (apply Z.pow_pos_nonneg; lia).
    revert Hx Hk Hu Hw.
    generalize (round_shift (mant x) (q - expo x)), (2 ^ (expo x + 1074)),
      (2 ^ (q - expo x)), (2 ^ (t - q)).
    intros k u w v Hx Hk Hu Hw.
    assert (g * v <= k) as Hkg.
    { apply Hk. apply (Z.mul_le_mono_pos_r _ _ u Hu). lia. }
    replace (g * (v * w * u)) with (g * v * (w * u)) by ring.
    apply Z.mul_le_mono_nonneg_r; [nia | exact Hkg].
Qed.

(** A Number below [2^c] has its last place at [2^(c - 53)] or finer. *)
Lemma round64_expo_le (x : dyadic) (c : Z) :
  0 <= mant x -> -1074 <= expo x -> expo x < c -> -1021 <= c ->
  scaled x < 2 ^ (c + 1074) ->
  expo (round64 x) <= c - 53.
Proof.
  intros Ha He Hec Hc Hx. unfold round64. simpl.
  apply Z.max_lub; [|lia].
  destruct (Z.eq_dec (mant x) 0) as [->|Hne]; [simpl; lia|].
  assert (Z.log2 (mant x) < c - expo x); [|lia].
  apply Z.log2_lt_pow2; [lia|].
  unfold scaled in Hx.
  replace (c + 1074) with ((c - expo x) + (expo x + 1074)) in Hx by lia.
  rewrite (Z.pow_add_r 2 (c - expo x) (expo x + 1074)) in Hx by lia.
  assert (0 < 2 ^ (expo x + 1074)) by (apply Z.pow_pos_nonneg; lia).
  nia.
Qed.

(** A Number from [2^c] on has its last place at [2^(c - 52)] or coarser. *)
Lemma round64_expo_ge (x : dyadic) (c : Z) :
  -1074 <= expo x -> expo x <= c ->
  2 ^ (c + 1074) <= scaled x ->
  c - 52 <= expo (round64 x).
Proof.
  intros He Hec Hx. unfold round64. simpl.
  assert (0 < 2 ^ (expo x + 1074)) by (apply Z.pow_pos_nonneg; lia).
  assert (0 < 2 ^ (c + 1074)) by (apply Z.pow_pos_nonneg; lia).
  unfold scaled in Hx.
  assert (0 < mant x) as Ha by nia.
  assert (c - expo x <= Z.log2 (mant x)); [|lia].
  apply Z.log2_le_pow2; [lia|].
  replace (c + 1074) with ((c - expo x) + (expo x + 1074)) in Hx by lia.
  rewrite (Z.pow_add_r 2 (c - expo x) (expo x + 1074)) in Hx by lia. nia.
Qed.


Lemma scaled_mant_sign (x : dyadic) :
  -1074 <= expo x -> 0 <= scaled x -> 0 <= mant x.
Proof.
  intros He Hx. unfold scaled in Hx.
  assert (0 < 2 ^ (expo x + 1074)) by (apply Z.pow_pos_nonneg; lia). nia.
Qed.

Lemma floor64_scaled (x : dyadic) :
  -1074 <= expo x <= 0 -> floor64 x = scaled x / 2 ^ 1074.
Proof.
  intros He. unfold floor64, scaled.
  assert (0 < 2 ^ (expo x + 1074)) by (apply Z.pow_pos_nonneg; lia).
  destruct (Z.leb_spec 0 (expo x)) as [H0|H0].
  - assert (expo x = 0) as -> by lia. simpl Z.add.
    rewrite Z.pow_0_r, Z.mul_1_r. symmetry. apply Z.div_mul. lia.
  - replace 1074 with (- expo x + (expo x + 1074)) at 2 by lia.
    rewrite (Z.pow_add_r 2 (- expo x) (expo x + 1074)) by lia.
    symmetry. apply Z.div_mul_cancel_r; [|lia].
    assert (0 < 2 ^ (- expo x)) by (apply Z.pow_pos_nonneg; lia). lia.
Qed.

(** A draw is a Number from [0] to [1 - 2^-53]. *)
Lemma decode64_draw (m : N) :
  is_draw m ->
  0 <= mant (decode64 m)
  /\ -1074 <= expo (decode64 m) <= -53
  /\ 0 <= scaled (decode64 m) <= (2 ^ 53 - 1) * 2 ^ 1021.
Proof.
  unfold is_draw. intros Hm.
  assert (m / 2 ^ 52 < 1023)%N as HE
    by (apply N.Div0.div_lt_upper_bound; exact Hm).
  assert (m mod 2 ^ 52 < 2 ^ 52)%N as HF by (apply N.mod_lt; discriminate).
  unfold decode64, scaled.
  revert HE HF. generalize (m / 2 ^ 52)%N, (m mod 2 ^ 52)%N. intros E F HE HF.
  destruct (Z.eqb_spec (Z.of_N E) 0) as [E0|E0]; simpl mant; simpl expo.
  - replace (-1074 + 1074) with 0 by lia. rewrite Z.pow_0_r, Z.mul_1_r.
    assert (0 < 2 ^ 1021) by (apply Z.pow_pos_nonneg; lia).
    change (2 ^ 52)%N with 4503599627370496%N in HF.
    change (2 ^ 53) with 9007199254740992.
    revert H. generalize (2 ^ 1021). intros T HT. nia.
  - replace (Z.of_N E - 1075 + 1074) with (Z.of_N E - 1) by lia.
    assert (0 < 2 ^ (Z.of_N E - 1)) by (apply Z.pow_pos_nonneg; lia).
    assert (2 ^ (Z.of_N E - 1) <= 2 ^ 1021) by (apply Z.pow_le_mono_r; lia).
    change (2 ^ 52)%N with 4503599627370496%N in HF.
    change (2 ^ 52) with 4503599627370496.
    change (2 ^ 53) with 9007199254740992.
    revert H H0. generalize (2 ^ (Z.of_N E - 1)), (2 ^ 1021).
    intros u T Hu HuT. repeat split; try lia; nia.
Qed.


(** The product [Math.random() * 900000]: it stays at or below the Number
    just under [900000], and on the same side of every integer as the
    exact product. *)
Lemma draw_product (m : N) :
  is_draw m ->
  let p := mul64 (decode64 m) (of_int 900000) in
  -1074 <= expo p <= -33
  /\ scaled p <= (900000 * 2 ^ 33 - 1) * 2 ^ 1041
  /\ forall g, (g * 2 ^ 1074 <= 900000 * scaled (decode64 m) ->
                g * 2 ^ 1074 <= scaled p)
            /\ (900000 * scaled (decode64 m) <= g * 2 ^ 1074 ->
                scaled p <= g * 2 ^ 1074).
Proof.
  intros Hm. destruct (decode64_draw m Hm) as (Ha & He & Hs0 & Hs).
  unfold mul64.
  set (x := mkDyadic _ _).
  assert (mant x = mant (decode64 m) * 900000) as Hmx by reflexivity.
  assert (expo x = expo (decode64 m)) as Hex by (unfold x; simpl; lia).
  assert (scaled x = 900000 * scaled (decode64 m)) as Hx
    by (unfold scaled; rewrite Hmx, Hex; ring).
  clearbody x.
  assert (2 ^ 1094 = 2 ^ 73 * 2 ^ 1021) as E94 by reflexivity.
  assert (2 ^ 1093 = 2 ^ 72 * 2 ^ 1021) as E93 by reflexivity.
  assert (2 ^ 1041 = 2 ^ 20 * 2 ^ 1021) as E41 by reflexivity.
  assert (0 < 2 ^ 1021) as HT by (apply Z.pow_pos_nonneg; lia).
  assert (expo (round64 x) <= -33) as Hq.
  { apply (round64_expo_le x 20); [nia | lia | lia | lia |].
    change (20 + 1074) with 1094. rewrite Hx, E94.
    revert Hs HT. generalize (2 ^ 1021), (scaled (decode64 m)).
    intros T s Hs HT. change (2 ^ 53) with 9007199254740992 in Hs.
    change (2 ^ 73) with 9444732965739290427392. nia. }
  pose proof (round64_expo_low x) as Hl.
  split; [lia|]. split.
  - destruct (Z.le_gt_cases (2 ^ 1093) (scaled x)) as [Hbig|Hsmall].
    + assert (expo (round64 x) = -33) as Eq.
      { pose proof (round64_expo_ge x 19 ltac:(lia) ltac:(lia) Hbig). lia. }
      unfold scaled. rewrite Eq.
      change (-33 + 1074) with 1041.
      apply Z.mul_le_mono_nonneg_r; [lia|].
      unfold round64 in Eq |- *. simpl in Eq |- *. rewrite Eq, Hex, Hmx.
      apply round_shift_below_half; [lia|].
      set (sh := -33 - expo (decode64 m)).
      assert (0 < 2 ^ (expo (decode64 m) + 1074)) as Hu
        by (apply Z.pow_pos_nonneg; lia).
      assert (2 ^ sh * 2 ^ (expo (decode64 m) + 1074) = 2 ^ 20 * 2 ^ 1021)
        as Hwu.
      { rewrite <- E41, <- Z.pow_add_r by (unfold sh; lia).
        f_equal. unfold sh. lia. }
      apply (Z.mul_lt_mono_pos_r (2 ^ (expo (decode64 m) + 1074)) _ _ Hu).
      unfold scaled in Hs.
      revert Hs Hwu Hu HT.
      generalize (2 ^ sh), (2 ^ (expo (decode64 m) + 1074)), (2 ^ 1021),
        (mant (decode64 m)).
      intros w u T a Hs Hwu Hu HT.
      change (2 ^ 53) with 9007199254740992 in Hs.
      change (2 ^ 20) with 1048576 in Hwu.
      change (2 ^ 33) with 8589934592. nia.
    + pose proof (round64_le x 1 19 ltac:(lia) ltac:(lia)) as Hle.
      change (19 + 1074) with 1093 in Hle.
      rewrite E41. rewrite E93 in Hle, Hsmall.
      revert Hle Hsmall HT. generalize (2 ^ 1021), (scaled x), (scaled (round64 x)).
      intros T sx sp Hle Hsmall HT.
      change (2 ^ 72) with 4722366482869645213696 in *.
      change (2 ^ 20) with 1048576. change (2 ^ 33) with 8589934592.
      assert (sp <= 1 * (4722366482869645213696 * T)) by (apply Hle; lia).
      nia.
  - intros g. change 1074 with (0 + 1074). rewrite <- Hx. split.
    + apply round64_ge; lia.
    + apply round64_le; lia.
Qed.


(** [Math.floor(100000 + Math.random() * 900000)] is an integer from
    100000 to 999999, the floor of the exact value or one more. *)
Lemma random_floor_draw (m : N) :
  is_draw m ->
  100000 <= Z.of_N (random_floor m) <= 999999
  /\ exact_floor m <= Z.of_N (random_floor m) <= exact_floor m + 1.
Proof.
  intros Hm.
  destruct (draw_product m Hm) as (Hep & Hptop & Hpg).
  destruct (decode64_draw m Hm) as (_ & _ & Hs0 & _).
  unfold random_floor, add64, exact_floor.
  set (p := mul64 (decode64 m) (of_int 900000)) in *.
  set (V := 900000 * scaled (decode64 m)) in *.
  assert (0 <= V) as HV0 by (unfold V; lia).
  clearbody p V.
  change (mant (of_int 100000)) with 100000.
  change (expo (of_int 100000)) with 0.
  set (x := mkDyadic _ _).
  assert (0 < 2 ^ 1074) as HU by (apply Z.pow_pos_nonneg; lia).
  assert (expo x = expo p) as Hex
    by (unfold x; cbn [expo]; apply Z.min_r; lia).
  assert (scaled x = 100000 * 2 ^ 1074 + scaled p) as Hx.
  { unfold scaled at 1. rewrite Hex. unfold x. cbn [mant].
    rewrite Z.min_r by lia. rewrite Z.sub_diag, Z.pow_0_r, Z.mul_1_r.
    rewrite Z.mul_add_distr_r, <- Z.mul_assoc, <- Z.pow_add_r by lia.
    replace (0 - expo p + (expo p + 1074)) with 1074 by lia. reflexivity. }
  assert (0 <= scaled p) as Hp0.
  { destruct (Hpg 0) as [H _]. apply H. lia. }
  assert (0 <= mant x) as Hmx
    by (apply scaled_mant_sign; [lia | rewrite Hx; lia]).
  clearbody x.
  assert (2 ^ 1094 = 2 ^ 53 * 2 ^ 1041) as E94 by reflexivity.
  assert (2 ^ 1074 = 2 ^ 33 * 2 ^ 1041) as E74 by reflexivity.
  assert (0 < 2 ^ 1041) as HT by (apply Z.pow_pos_nonneg; lia).
  assert (scaled x <= (1000000 * 2 ^ 33 - 1) * 2 ^ 1041) as Hxtop.
  { rewrite Hx, E74. revert Hptop HT. generalize (2 ^ 1041), (scaled p).
    intros T sp Hptop HT. change (2 ^ 33) with 8589934592 in *. nia. }
  assert (expo (round64 x) <= -33) as Hq.
  { apply (round64_expo_le x 20); [lia | lia | lia | lia |].
    change (20 + 1074) with 1094. rewrite E94.
    revert Hxtop HT. generalize (2 ^ 1041), (scaled x). intros T sx Hxtop HT.
    change (2 ^ 33) with 8589934592 in *.
    change (2 ^ 53) with 9007199254740992. nia. }
  pose proof (round64_expo_low x) as Hl.
  pose proof (round64_le x (1000000 * 2 ^ 33 - 1) (-33) ltac:(lia) Hq Hxtop)
    as Hytop.
  change (-33 + 1074) with 1041 in Hytop.
  assert (forall g, (g * 2 ^ 1074 <= scaled x ->
                     g * 2 ^ 1074 <= scaled (round64 x))
                 /\ (scaled x <= g * 2 ^ 1074 ->
                     scaled (round64 x) <= g * 2 ^ 1074)) as Hyg.
  { intros g. change 1074 with (0 + 1074). split.
    - apply round64_ge; lia.
    - apply round64_le; lia. }
  rewrite floor64_scaled by lia.
  set (y := scaled (round64 x)) in *.
  set (X := (100000 * 2 ^ 1074 + V) / 2 ^ 1074).
  assert (X * 2 ^ 1074 <= 100000 * 2 ^ 1074 + V < (X + 1) * 2 ^ 1074) as HX.
  { unfold X. pose proof (Z.mul_div_le (100000 * 2 ^ 1074 + V) _ HU).
    pose proof (Z.mul_succ_div_gt (100000 * 2 ^ 1074 + V) _ HU). lia. }
  assert (100000 * 2 ^ 1074 <= y) as Hy1
    by (apply (proj1 (Hyg 100000)); lia).
  assert (X * 2 ^ 1074 <= y) as Hy2.
  { apply (proj1 (Hyg X)). rewrite Hx.
    assert ((X - 100000) * 2 ^ 1074 <= scaled p)
      by (apply (proj1 (Hpg (X - 100000))); lia).
    lia. }
  assert (y <= (X + 1) * 2 ^ 1074) as Hy3.
  { apply (proj2 (Hyg (X + 1))). rewrite Hx.
    assert (scaled p <= (X + 1 - 100000) * 2 ^ 1074)
      by (apply (proj2 (Hpg (X + 1 - 100000))); lia).
    lia. }
  assert (0 <= y / 2 ^ 1074) by (apply Z.div_pos; lia).
  rewrite Z2N.id by assumption.
  repeat split.
  - apply Z.div_le_lower_bound; lia.
  - assert (y / 2 ^ 1074 < 1000000); [|lia].
    apply Z.div_lt_upper_bound; [lia|].
    rewrite E74 in *. revert Hytop HT. generalize (2 ^ 1041).
    intros T Hytop HT. change (2 ^ 33) with 8589934592 in *. nia.
  - apply Z.div_le_lower_bound; lia.
  - assert (y / 2 ^ 1074 < X + 2); [|lia].
    apply Z.div_lt_upper_bound; lia.
Qed.

End Binary64.

Lemma random_floor_range (m : N) :
  is_draw m -> 100000 <= random_floor m < 1000000.
Proof.
  intros Hm. destruct (random_floor_draw m Hm) as [Hr _]. lia.
Qed.

(** From here on the arithmetic of the draw is used through the lemmas
    above and evaluated by [vm_compute] only. *)
#[global] Opaque random_floor exact_floor.

Lemma decimal_value_snoc (ds : jsstring) (d : N) :
  decimal_value (ds ++ [d]) = 10 * decimal_value ds + (d - 48).
Proof. unfold decimal_value. rewrite fold_left_app. reflexivity. Qed.

Lemma digits_rev_value (fuel : nat) (n : N) :
  n < 2 ^ N.of_nat fuel ->
  decimal_value (reverse (digits_rev fuel n)) = n.
Proof.
  revert n. induction fuel as [|fuel IH]; intros n Hn.
  - change (2 ^ N.of_nat 0) with 1 in Hn.
    assert (n = 0) as -> by lia. reflexivity.
  - simpl digits_rev. rewrite reverse_cons, decimal_value_snoc.
    rewrite Nat2N.inj_succ, N.pow_succ_r' in Hn.
    assert (n = 10 * (n / 10) + n mod 10) as Hdm
      by (apply N.div_mod; discriminate).
    assert (n mod 10 < 10) as Hr by (apply N.mod_lt; discriminate).
    assert (n / 10 < 2 ^ N.of_nat fuel) as Hq.
    { apply N.Div0.div_lt_upper_bound.
      assert (0 < 2 ^ N.of_nat fuel)
        by (apply N.neq_0_lt_0, N.pow_nonzero; discriminate).
      lia. }
    destruct (N.eqb_spec (n / 10) 0) as [E|_].
    + change (decimal_value (reverse [])) with 0. rewrite E in Hdm.
      revert Hdm Hr. generalize (n mod 10). intros r Hdm Hr. lia.
    + rewrite (IH _ Hq). clear IH Hq Hn.
      revert Hdm Hr. generalize (n mod 10), (n / 10). intros r q Hdm Hr. lia.
Qed.

(** [toString] writes a number that reads back as itself. *)
Lemma toString_value (n : N) : decimal_value (toString n) = n.
Proof.
  unfold toString. apply digits_rev_value.
  rewrite Nat2N.inj_succ, N2Nat.id.
  destruct n as [|p]; [reflexivity|].
  apply N.log2_spec. reflexivity.
Qed.

Lemma toString_nonempty (n : N) : toString n ≠ [].
Proof.
  intros H. apply (f_equal (@length N)) in H.
  unfold toString in H. rewrite length_reverse in H. discriminate.
Qed.

(** A generated session id is six decimal digits. *)
Lemma newSessionId_six_digits (m : N) :
  is_draw m ->
  length (newSessionId m) = 6%nat
  /\ Forall (fun c => is_digit c = true) (newSessionId m).
Proof.
  intros Hm. pose proof (random_floor_range m Hm) as Hr.
  unfold newSessionId, toString. split.
  - rewrite length_reverse. apply (digits_rev_length 5).
    + assert (16 <= N.log2 (random_floor m)).
      { change 16 with (N.log2 100000). apply N.log2_le_mono. lia. }
      lia.
    + change (10 ^ N.of_nat 5) with 100000.
      change (10 ^ N.of_nat 6) with 1000000. exact Hr.
  - apply Forall_reverse, digits_rev_digits.
Qed.

(** ** The handlers, piece by piece *)

(** When the guard of [handleSend] passes, the optimistic transcript is
    displayed, the error is cleared, the loading flag is raised, and the
    request carries the snapshot and the text. *)
Lemma handleSend_submit_passes (s : Client) :
  trim (input s) ≠ [] -> sessionId s ≠ [] ->
  handleSend_submit s =
    (mkClient (sessionId s) (messages s ++ [user_msg (input s)]) (input s)
       true [] (stored s),
     Normal (mkSending (messages s) (messages s ++ [user_msg (input s)])
               (sessionId s) (input s))).
Proof.
  intros Ht Hs. unfold handleSend_submit, js_not. run_act.
  rewrite !bool_decide_eq_false_2 by assumption. reflexivity.
Qed.

Lemma handleSend_submit_request (s : Client) (c : Sending) :
  request_of (handleSend_submit s) = Some c ->
  previousMessages c = messages s
  /\ optimistic c = messages s ++ [user_msg (input s)].
Proof.
  unfold handleSend_submit, js_not. run_act.
  destruct (bool_decide (trim (input s) = []) || bool_decide (sessionId s = []));
    simpl; [discriminate|].
  intros [= <-]. split; reflexivity.
Qed.

(** A failed request: the catch block or the [!res.ok] branch. *)
Lemma handleSend_settle_failure (c : Sending) (f : Fetched) (k : Failure)
    (s : Client) :
  failure_of f = Some k ->
  handleSend_settle c f s =
    (mkClient (sessionId s) (previousMessages c) (input s) false
       (failure_message k) (stored s),
     match k with NonSuccess _ => Returned | Exception => Normal None end).
Proof.
  unfold failure_of, handleSend_settle, handleSend_try.
  destruct f as [|res]; run_act.
  - intros [= <-]. reflexivity.
  - destruct (ok res); simpl.
    + destruct (json res); [discriminate|]. intros [= <-]. reflexivity.
    + destruct (text res); intros [= <-]; simpl; [|reflexivity].
      destruct (status res =? 503); reflexivity.
Qed.

(** A success whose transcript does not end in an assistant message: the
    early return of [handleSend]. *)
Lemma handleSend_settle_as_is (c : Sending) (res : Response)
    (history : option (list Message)) (s : Client) :
  ok res = true -> json res = Some history ->
  (forall m, last (default (optimistic c) history) = Some m ->
             role m ≠ lit "assistant") ->
  handleSend_settle c (Resolved res) s =
    (mkClient (sessionId s) (default (optimistic c) history) (input s) false
       (error s) (stored s),
     Returned).
Proof.
  intros Hok Hj Hlast. unfold handleSend_settle, handleSend_try. run_act.
  rewrite Hok, Hj. simpl.
  destruct (last (default (optimistic c) history)) as [m|] eqn:E; simpl.
  - rewrite bool_decide_eq_true_2 by (apply Hlast; reflexivity). reflexivity.
  - reflexivity.
Qed.

(** ** The typing animation *)

Lemma typeNextChar_types (t : Typing) (ch : N) (s : Client) :
  ty_fullText t !! ty_index t = Some ch ->
  typeNextChar t s =
    (setMessages (ty_optimistic t ++ [assistant_msg (ty_typed t ++ [ch])]) s,
     Normal (Some (mkTyping (ty_optimistic t) (ty_typed t ++ [ch])
                     (S (ty_index t)) (ty_fullText t) (ty_fullHistory t)))).
Proof. intros H. unfold typeNextChar. rewrite H. reflexivity. Qed.

Lemma typeNextChar_done (t : Typing) (s : Client) :
  ty_fullText t !! ty_index t = None ->
  typeNextChar t s = (setMessages (ty_fullHistory t) s, Normal None).
Proof. intros H. unfold typeNextChar. rewrite H. reflexivity. Qed.

Lemma run_timer_unarmed (n : nat) (s : Client) : run_timer n s None = (s, None).
Proof. destruct n; reflexivity. Qed.

(** [k] further firings, while characters remain. *)
Lemma run_timer_typing (k : nat) (t : Typing) (s : Client) :
  typing_ok t ->
  (ty_index t + k <= length (ty_fullText t))%nat ->
  messages s = ty_optimistic t ++ [assistant_msg (ty_typed t)] ->
  messages (fst (run_timer k s (Some t))) =
    ty_optimistic t
      ++ [assistant_msg (take (ty_index t + k) (ty_fullText t))]
  /\ snd (run_timer k s (Some t)) =
       Some (mkTyping (ty_optimistic t)
               (take (ty_index t + k) (ty_fullText t)) (ty_index t + k)
               (ty_fullText t) (ty_fullHistory t)).
Proof.
  revert t s. induction k as [|k IH]; intros t s Hok Hlen Hs.
  - rewrite Nat.add_0_r. simpl. rewrite <- Hok. destruct t; auto.
  - destruct (lookup_lt_is_Some_2 (ty_fullText t) (ty_index t)) as [ch Hch];
      [lia|].
    simpl. rewrite (typeNextChar_types t ch s Hch). simpl.
    set (t' := mkTyping _ _ _ _ _).
    assert (typing_ok t') as Hok'.
    { unfold typing_ok, t'. simpl. rewrite (take_S_r _ _ ch) by assumption.
      by rewrite <- Hok. }
    destruct (IH t' (setMessages
                       (ty_optimistic t ++ [assistant_msg (ty_typed t ++ [ch])])
                       s) Hok') as [Hm Ht].
    + unfold t'. simpl. lia.
    + reflexivity.
    + unfold t' in Hm, Ht. simpl in Hm, Ht.
      replace (ty_index t + S k)%nat with (S (ty_index t) + k)%nat by lia.
      auto.
Qed.

(** Enough firings end the animation on the adopted transcript. *)
Lemma run_timer_finishes (n : nat) (t : Typing) (s : Client) :
  (S (length (ty_fullText t) - ty_index t) <= n)%nat ->
  messages (fst (run_timer n s (Some t))) = ty_fullHistory t
  /\ snd (run_timer n s (Some t)) = None.
Proof.
  revert t s. induction n as [|n IH]; intros t s Hn; [lia|].
  simpl. destruct (ty_fullText t !! ty_index t) as [ch|] eqn:E.
  - rewrite (typeNextChar_types t ch s E). simpl.
    apply lookup_lt_Some in E.
    set (t' := mkTyping _ _ _ _ _).
    change (ty_fullHistory t) with (ty_fullHistory t').
    apply IH. unfold t'. simpl. lia.
  - rewrite (typeNextChar_done t s E). simpl.
    rewrite run_timer_unarmed. auto.
Qed.

(** The animation leaves everything but the transcript alone. *)
Lemma run_timer_frame (n : nat) (t : option Typing) (s : Client) :
  let s' := fst (run_timer n s t) in
  sessionId s' = sessionId s /\ input s' = input s
  /\ loading s' = loading s /\ error s' = error s /\ stored s' = stored s.
Proof.
  revert t s. induction n as [|n IH]; intros [t|] s; simpl; auto.
  destruct (IH (match snd (typeNextChar t s) with
                | Normal t' => t' | _ => None end)
               (state_of (typeNextChar t s))) as (H1 & H2 & H3 & H4 & H5).
  simpl in *. rewrite H1, H2, H3, H4, H5.
  unfold typeNextChar. destruct (ty_fullText t !! ty_index t); simpl; auto.
Qed.

(** A success whose transcript ends in an assistant message: the animation
    starts, and its first step runs at once. *)
Lemma handleSend_settle_animates (c : Sending) (res : Response)
    (history : option (list Message)) (lastBot : Message) (s : Client) :
  ok res = true -> json res = Some history ->
  last (default (optimistic c) history) = Some lastBot ->
  role lastBot = lit "assistant" ->
  let t0 := mkTyping (optimistic c) [] 0 (content lastBot)
              (default (optimistic c) history) in
  let r := typeNextChar t0 s in
  handleSend_settle c (Resolved res) s =
    (mkClient (sessionId s) (messages (fst r)) [] false (error s) (stored s),
     Normal (Some (match snd r with Normal t => t | _ => None end))).
Proof.
  intros Hok Hj Hlast Hrole. unfold handleSend_settle, handleSend_try. run_act.
  rewrite Hok, Hj. simpl. rewrite Hlast. simpl.
  rewrite bool_decide_eq_false_2 by (intros H; apply H, Hrole).
  unfold typeNextChar. simpl.
  destruct (content lastBot !! 0%nat); reflexivity.
Qed.

(** Started on a transcript that ends in an assistant message, the
    animation is over after as many firings as the reply has characters,
    and the adopted transcript is on display. *)
Lemma animation_runs_out (c : Sending) (res : Response)
    (history : option (list Message)) (lastBot : Message) (s : Client)
    (n : nat) :
  ok res = true -> json res = Some history ->
  last (default (optimistic c) history) = Some lastBot ->
  role lastBot = lit "assistant" ->
  (length (content lastBot) <= n)%nat ->
  messages (fst (run_timer n (state_of (handleSend_settle c (Resolved res) s))
                   (timer_of (handleSend_settle c (Resolved res) s)))) =
    default (optimistic c) history
  /\ snd (run_timer n (state_of (handleSend_settle c (Resolved res) s))
            (timer_of (handleSend_settle c (Resolved res) s))) = None.
Proof.
  intros Hok Hj Hlast Hrole Hn.
  rewrite (handleSend_settle_animates c res history lastBot s Hok Hj Hlast
             Hrole).
  unfold state_of, timer_of. simpl fst. simpl snd.
  destruct (content lastBot) as [|ch text'] eqn:E.
  - unfold typeNextChar. simpl.
    rewrite run_timer_unarmed. auto.
  - unfold typeNextChar. simpl.
    match goal with
    | |- context [run_timer n ?s0 (Some ?t0)] =>
        destruct (run_timer_finishes n t0 s0) as [Hm Ht]
    end.
    + simpl in *. lia.
    + simpl in Hm. auto.
Qed.

(** The firings the animation of a reply needs: one per character. *)
Lemma ticks_left_settle (c : Sending) (res : Response)
    (history : option (list Message)) (lastBot : Message) (s : Client) :
  ok res = true -> json res = Some history ->
  last (default (optimistic c) history) = Some lastBot ->
  role lastBot = lit "assistant" ->
  ticks_left (timer_of (handleSend_settle c (Resolved res) s)) =
    length (content lastBot).
Proof.
  intros Hok Hj Hlast Hrole.
  rewrite (handleSend_settle_animates c res history lastBot s Hok Hj Hlast
             Hrole).
  unfold timer_of, typeNextChar. simpl.
  destruct (content lastBot) as [|ch text']; simpl; [reflexivity|].
  f_equal. lia.
Qed.

(** ** The claims on one send *)

(** C5. When the input is blank or only white space, or no session id is
    set, [handleSend] returns at its guard: the state (transcript, error,
    loading flag and all the rest) is unchanged and no request is issued;
    so the whole of [sendMessage] changes nothing either. *)
Theorem handleSend_blank_is_noop (s : Client) (f : Fetched) :
  Forall (fun c => is_js_whitespace c = true) (input s) \/ sessionId s = [] ->
  handleSend_submit s = (s, Returned)
  /\ request_of (handleSend_submit s) = None
  /\ sendMessage f s = (s, None).
Proof.
  intros H.
  assert (handleSend_submit s = (s, Returned)) as E.
  { unfold handleSend_submit, js_not. run_act.
    destruct H as [H| ->].
    - apply trim_nil in H. rewrite H. reflexivity.
    - rewrite orb_true_r. reflexivity. }
  unfold sendMessage. rewrite E. auto.
Qed.

Lemma handleSend_blank_is_noop_witness :
  handleSend_submit (setInput (lit "  ") asking)
    = (setInput (lit "  ") asking, Returned)
  /\ request_of (handleSend_submit (setInput (lit "  ") asking)) = None
  /\ sendMessage Rejected (setInput (lit "  ") asking)
     = (setInput (lit "  ") asking, None).
Proof.
  apply (handleSend_blank_is_noop (setInput (lit "  ") asking) Rejected).
  left. repeat constructor.
Defined.

(** A 503 whose body cannot be read goes through the [catch] block and
    shows the network message, not the overload message. *)
Lemma failure_shows_by_status_fails : ~ failure_shows_by_status.
Proof.
  intros H.
  destruct (H asking asked asking_request (Resolved unreadable_overload)
              eq_refl eq_refl) as (_ & _ & _ & E).
  vm_compute in E. discriminate.
Qed.

(** C4, amended. When the request of a send fails, by a non-success status
    or by an exception, then whatever the state at that moment: the
    transcript is the snapshot taken at the submit, the loading flag is
    false, no animation timer is armed, and the error is the overload
    message for a status 503 whose body text was read, the generic message
    for any other non-success status whose body text was read, and the
    network message for an exception, that is a rejected fetch or a body
    that cannot be read, whatever the status.  The overload message differs
    from the other two. *)
Theorem send_failure_rolls_back (s s' : Client) (c : Sending) (f : Fetched)
    (k : Failure) :
  request_of (handleSend_submit s) = Some c ->
  failure_of f = Some k ->
  messages (state_of (handleSend_settle c f s')) = messages s
  /\ loading (state_of (handleSend_settle c f s')) = false
  /\ timer_of (handleSend_settle c f s') = None
  /\ error (state_of (handleSend_settle c f s')) =
       match k with
       | NonSuccess 503 => overloaded_message
       | NonSuccess _ => generic_message
       | Exception => network_message
       end
  /\ overloaded_message ≠ generic_message
  /\ overloaded_message ≠ network_message.
Proof.
  intros Hc Hk. apply handleSend_submit_request in Hc as [Hp _].
  rewrite (handleSend_settle_failure c f k s' Hk). run_act.
  repeat split; try assumption; try discriminate.
  - destruct k; reflexivity.
  - destruct k as [st|]; [|reflexivity]. simpl.
    destruct (N.eqb_spec st 503) as [->|Hne]; [reflexivity|].
    destruct st as [|p]; [reflexivity|].
    do 9 (destruct p as [p|p|]; try reflexivity). congruence.
Qed.

Lemma send_failure_rolls_back_witness :
  messages (state_of (handleSend_settle asking_request (Resolved overloaded)
                        asked)) = greeting
  /\ loading (state_of (handleSend_settle asking_request (Resolved overloaded)
                          asked)) = false
  /\ timer_of (handleSend_settle asking_request (Resolved overloaded) asked)
     = None
  /\ error (state_of (handleSend_settle asking_request (Resolved overloaded)
                        asked)) = overloaded_message
  /\ overloaded_message ≠ generic_message
  /\ overloaded_message ≠ network_message.
Proof.
  apply (send_failure_rolls_back asking asked asking_request
           (Resolved overloaded) (NonSuccess 503)); reflexivity.
Defined.

(** C7. When a send succeeds and the transcript of the response is empty or
    ends in a message that is not from the assistant, the client displays
    that transcript as it is, clears the loading flag, and arms no
    animation timer. *)
Theorem success_without_reply_is_displayed (c : Sending) (res : Response)
    (h : list Message) (s : Client) :
  ok res = true -> json res = Some (Some h) ->
  (forall m, last h = Some m -> role m ≠ lit "assistant") ->
  messages (state_of (handleSend_settle c (Resolved res) s)) = h
  /\ loading (state_of (handleSend_settle c (Resolved res) s)) = false
  /\ timer_of (handleSend_settle c (Resolved res) s) = None.
Proof.
  intros Hok Hj Hlast.
  rewrite (handleSend_settle_as_is c res (Some h) s Hok Hj Hlast).
  repeat split.
Qed.

Lemma success_without_reply_is_displayed_witness :
  messages (state_of (handleSend_settle asking_request (Resolved echo_answer)
                        asked)) = greeting ++ [user_msg (lit "news?")]
  /\ loading (state_of (handleSend_settle asking_request
                          (Resolved echo_answer) asked)) = false
  /\ timer_of (handleSend_settle asking_request (Resolved echo_answer) asked)
     = None.
Proof.
  apply (success_without_reply_is_displayed asking_request echo_answer
           (greeting ++ [user_msg (lit "news?")]) asked); try reflexivity.
  intros m [= <-]. discriminate.
Defined.

(** C9. When a send succeeds and the body of the response has no history,
    the transcript settles to the optimistic one, the transcript at the
    submit followed by the one user message: no reply is appended, no
    animation timer is armed, and the loading flag is cleared. *)
Theorem success_without_history_keeps_optimistic (s s' : Client) (c : Sending)
    (res : Response) :
  request_of (handleSend_submit s) = Some c ->
  ok res = true -> json res = Some None ->
  messages (state_of (handleSend_settle c (Resolved res) s')) =
    messages s ++ [user_msg (input s)]
  /\ loading (state_of (handleSend_settle c (Resolved res) s')) = false
  /\ timer_of (handleSend_settle c (Resolved res) s') = None.
Proof.
  intros Hc Hok Hj. apply handleSend_submit_request in Hc as [_ Ho].
  rewrite (handleSend_settle_as_is c res None s' Hok Hj).
  - simpl. rewrite Ho. repeat split.
  - simpl. rewrite Ho, last_snoc. intros m [= <-]. discriminate.
Qed.

Lemma success_without_history_keeps_optimistic_witness :
  messages (state_of (handleSend_settle asking_request (Resolved bare_answer)
                        asked)) = greeting ++ [user_msg (lit "news?")]
  /\ loading (state_of (handleSend_settle asking_request
                          (Resolved bare_answer) asked)) = false
  /\ timer_of (handleSend_settle asking_request (Resolved bare_answer) asked)
     = None.
Proof.
  apply (success_without_history_keeps_optimistic asking asked asking_request
           bare_answer); reflexivity.
Defined.

(** C3. When a send succeeds with a transcript that ends in an assistant
    message, then once the timer has fired as many times as the reply has
    characters (or more) the animation is over and the displayed transcript
    is the transcript of the response, whatever was rendered on the way. *)
Theorem animation_converges (c : Sending) (res : Response) (h : list Message)
    (lastBot : Message) (s : Client) (n : nat) :
  ok res = true -> json res = Some (Some h) ->
  last h = Some lastBot -> role lastBot = lit "assistant" ->
  (length (content lastBot) <= n)%nat ->
  messages (fst (run_timer n (state_of (handleSend_settle c (Resolved res) s))
                   (timer_of (handleSend_settle c (Resolved res) s)))) = h
  /\ snd (run_timer n (state_of (handleSend_settle c (Resolved res) s))
            (timer_of (handleSend_settle c (Resolved res) s))) = None.
Proof.
  intros Hok Hj Hlast Hrole Hn.
  exact (animation_runs_out c res (Some h) lastBot s n Hok Hj Hlast Hrole Hn).
Qed.

Lemma animation_converges_witness :
  messages (fst (run_timer 9
                   (state_of (handleSend_settle asking_request
                                (Resolved answer) asked))
                   (timer_of (handleSend_settle asking_request
                                (Resolved answer) asked)))) = answered
  /\ snd (run_timer 9
            (state_of (handleSend_settle asking_request (Resolved answer)
                         asked))
            (timer_of (handleSend_settle asking_request (Resolved answer)
                         asked))) = None.
Proof.
  apply (animation_converges asking_request answer answered
           (assistant_msg (lit "Top story")) asked 9);
    try reflexivity; vm_compute; lia.
Defined.

(** C10. During the animation of a reply, after the first step and [k]
    firings of the timer the displayed transcript is the optimistic one
    followed by an assistant message holding the first [k + 1] characters
    of the reply: the content is a prefix of the reply, one character
    longer at each firing, the next firing appends the next character of
    the reply, and the entries before it are those of the optimistic
    transcript. *)
Theorem typing_appends_one_char (c : Sending) (res : Response)
    (h : list Message) (lastBot : Message) (s : Client) (k : nat) :
  ok res = true -> json res = Some (Some h) ->
  last h = Some lastBot -> role lastBot = lit "assistant" ->
  (k < length (content lastBot))%nat ->
  let r := handleSend_settle c (Resolved res) s in
  let shown := take (S k) (content lastBot) in
  messages (fst (run_timer k (state_of r) (timer_of r))) =
    optimistic c ++ [assistant_msg shown]
  /\ snd (run_timer k (state_of r) (timer_of r)) =
       Some (mkTyping (optimistic c) shown (S k) (content lastBot) h)
  /\ shown `prefix_of` content lastBot
  /\ length shown = S k
  /\ take (length (optimistic c))
       (messages (fst (run_timer k (state_of r) (timer_of r)))) = optimistic c
  /\ (forall ch, content lastBot !! S k = Some ch ->
        messages (fst (run_timer (S k) (state_of r) (timer_of r))) =
          optimistic c ++ [assistant_msg (shown ++ [ch])]).
Proof.
  intros Hok Hj Hlast Hrole Hk r shown.
  assert (forall j, (j < length (content lastBot))%nat ->
    messages (fst (run_timer j (state_of r) (timer_of r))) =
      optimistic c ++ [assistant_msg (take (S j) (content lastBot))]
    /\ snd (run_timer j (state_of r) (timer_of r)) =
         Some (mkTyping (optimistic c) (take (S j) (content lastBot)) (S j)
                 (content lastBot) h)) as Hrun.
  { intros j Hj'. unfold r.
    rewrite (handleSend_settle_animates c res (Some h) lastBot s Hok Hj Hlast
               Hrole).
    destruct (lookup_lt_is_Some_2 (content lastBot) 0%nat) as [ch Hch]; [lia|].
    unfold state_of, timer_of. simpl fst. simpl snd.
    rewrite (typeNextChar_types _ ch) by exact Hch. simpl.
    match goal with
    | |- context [run_timer j ?s0 (Some ?t0)] =>
        destruct (run_timer_typing j t0 s0) as [Hm Ht]
    end.
    - unfold typing_ok. simpl. by rewrite (take_S_r _ _ ch).
    - simpl. lia.
    - reflexivity.
    - simpl in Hm, Ht. auto. }
  destruct (Hrun k Hk) as [Hm Ht].
  repeat split.
  - exact Hm.
  - exact Ht.
  - apply prefix_take.
  - unfold shown. rewrite length_take. lia.
  - rewrite Hm. by rewrite take_app_length.
  - intros ch Hch. apply lookup_lt_Some in Hch as Hlt.
    destruct (Hrun (S k) Hlt) as [Hm' _]. rewrite Hm'.
    by rewrite (take_S_r _ _ ch).
Qed.

Lemma typing_appends_one_char_witness :
  messages (fst (run_timer 2
                   (state_of (handleSend_settle asking_request
                                (Resolved answer) asked))
                   (timer_of (handleSend_settle asking_request
                                (Resolved answer) asked)))) =
    greeting ++ [user_msg (lit "news?"); assistant_msg (lit "Top")].
Proof.
  apply (typing_appends_one_char asking_request answer answered
           (assistant_msg (lit "Top story")) asked 2);
    try reflexivity; vm_compute; lia.
Defined.

(** A success response without a history leaves the user message alone at
    the end of the transcript. *)
Lemma send_all_or_nothing_fails : ~ send_all_or_nothing.
Proof.
  intros H.
  destruct (H asking (Resolved bare_answer)) as [[_ [reply E]]|[E _]];
    [discriminate | discriminate | |].
  - vm_compute in E. discriminate.
  - vm_compute in E. discriminate.
Qed.

(** C2, amended. A send with non-blank text and a session settles, with no
    timer left armed, on the transcript of the response when the request
    succeeds with one, on the transcript at the submit followed by the one
    user message when the request succeeds without one, and on the
    transcript at the submit when the request fails. *)
Theorem send_settles (s : Client) (f : Fetched) :
  trim (input s) ≠ [] -> sessionId s ≠ [] ->
  snd (sendMessage f s) = None
  /\ messages (fst (sendMessage f s)) =
       if succeeded f
       then default (messages s ++ [user_msg (input s)]) (response_history f)
       else messages s.
Proof.
  intros Ht Hs. unfold sendMessage.
  rewrite (handleSend_submit_passes s Ht Hs). unfold request_of, state_of.
  simpl snd. simpl fst. cbv iota beta.
  set (c := mkSending _ _ _ _). set (s1 := mkClient _ _ _ _ _ _).
  destruct (failure_of f) as [k|] eqn:Hk.
  - assert (succeeded f = false) as ->.
    { destruct f as [|res]; [reflexivity|]. simpl in *.
      destruct (ok res); [|reflexivity].
      destruct (json res); [discriminate | reflexivity]. }
    rewrite (handleSend_settle_failure c f k s1 Hk).
    unfold timer_of. simpl snd.
    replace (match match k with NonSuccess _ => Returned | Exception => Normal None end
             with Normal (Some t) => t | _ => None end) with (@None Typing)
      by (destruct k; reflexivity).
    simpl. auto.
  - destruct f as [|res]; [discriminate|]. simpl in Hk.
    destruct (ok res) eqn:Hok; [|destruct (text res); discriminate].
    destruct (json res) as [history|] eqn:Hj; [|discriminate].
    simpl succeeded. rewrite Hok, Hj. simpl response_history. rewrite Hj.
    rewrite bool_decide_eq_true_2 by eauto. simpl.
    change (messages s ++ [user_msg (input s)]) with (optimistic c).
    destruct (last (default (optimistic c) history)) as [lastBot|] eqn:Hlast.
    + destruct (decide (role lastBot = lit "assistant")) as [Hrole|Hrole].
      * rewrite (ticks_left_settle c res history lastBot s1 Hok Hj Hlast Hrole).
        destruct (animation_runs_out c res history lastBot s1
                    (length (content lastBot)) Hok Hj Hlast Hrole) as [Hm Hn];
          [lia|].
        unfold state_of in Hm, Hn. auto.
      * rewrite (handleSend_settle_as_is c res history s1 Hok Hj)
          by (intros m; rewrite Hlast; intros [= <-]; exact Hrole).
        simpl. auto.
    + rewrite (handleSend_settle_as_is c res history s1 Hok Hj)
        by (intros m; rewrite Hlast; discriminate).
      simpl. auto.
Qed.

Lemma send_settles_witness :
  snd (sendMessage (Resolved answer) asking) = None
  /\ messages (fst (sendMessage (Resolved answer) asking)) = answered.
Proof.
  apply (send_settles asking (Resolved answer)); discriminate.
Defined.

(** C8: a success that takes the early return of [handleSend] leaves the
    input field as it was, where the animated success clears it. *)
Lemma early_return_keeps_input :
  succeeded (Resolved echo_answer) = true
  /\ input (fst (sendMessage (Resolved echo_answer) asking)) = lit "news?"
  /\ input (fst (sendMessage (Resolved answer) asking)) = [].
Proof. repeat split. Qed.

(** ** Reset *)

Lemma handleResetSession_unfold (clear : Fetched) (m : N) (s : Client) :
  handleResetSession clear m s = handleResetSession_rest m s.
Proof.
  unfold handleResetSession. run_act.
  destruct (js_not (sessionId s)); simpl; [reflexivity|].
  destruct (settlement clear); reflexivity.
Qed.

(** C6. Whatever the clear request settles to, and when none is made,
    [handleResetSession] ends with an empty transcript, an empty error, and
    a newly generated id as the session id, in the state and in
    [localStorage]; the input and the loading flag are untouched.  The id
    is six decimal digits: the numeral of
    [Math.floor(100000 + Math.random() * 900000)] for the draw of this
    call, which in binary64 arithmetic is the floor of the exact value or
    one more. *)
Theorem reset_always_clears (clear : Fetched) (m : N) (s : Client) :
  is_draw m ->
  state_of (handleResetSession clear m s) =
    mkClient (newSessionId m) [] (input s) (loading s) []
      (Some (newSessionId m))
  /\ length (newSessionId m) = 6%nat
  /\ Forall (fun c => is_digit c = true) (newSessionId m)
  /\ (exact_floor m <= Z.of_N (decimal_value (newSessionId m))
      <= exact_floor m + 1)%Z.
Proof.
  intros Hm. rewrite handleResetSession_unfold.
  split; [reflexivity|].
  destruct (newSessionId_six_digits m Hm) as [Hlen Hdig].
  split; [exact Hlen|]. split; [exact Hdig|].
  unfold newSessionId. rewrite toString_value.
  exact (proj2 (random_floor_draw m Hm)).
Qed.

Lemma reset_always_clears_witness :
  state_of (handleResetSession Rejected 0x3FE0000000000000 asking) =
    mkClient (lit "550000") [] (lit "news?") false [] (Some (lit "550000"))
  /\ length (newSessionId 0x3FE0000000000000) = 6%nat
  /\ Forall (fun c => is_digit c = true) (newSessionId 0x3FE0000000000000)
  /\ (exact_floor 0x3FE0000000000000
      <= Z.of_N (decimal_value (newSessionId 0x3FE0000000000000))
      <= exact_floor 0x3FE0000000000000 + 1)%Z.
Proof.
  apply (reset_always_clears Rejected 0x3FE0000000000000 asking). reflexivity.
Defined.

(** ** The displayed transcript along the runs of the page *)

Lemma overlapping_sends_run :
  outcome (run (boot (Some (lit "123456")) 0) [] overlapping_sends)
    = Some (overlapped, greeting).
Proof. vm_compute. reflexivity. Qed.

(** The transcript on display then fits neither the transcript settled
    before, nor the one the backend has just sent. *)
Lemma overlapped_fits_nothing :
  ~ displays greeting overlapped /\ ~ displays answered overlapped.
Proof.
  split; intros [E|[[c E]|[c [p E]]]]; vm_compute in E; discriminate.
Qed.

(** And when the second request fails after the first animation has ended,
    the roll-back puts a half-typed reply on display. *)
Lemma overlapping_sends_roll_back :
  outcome (run (boot (Some (lit "123456")) 0) []
             (overlapping_sends ++ replicate 9 (Tick 0)))
    = Some (answered, answered)
  /\ outcome (run (boot (Some (lit "123456")) 0) []
                (overlapping_sends ++ replicate 9 (Tick 0)
                 ++ [ChatSettled 0 (Resolved overloaded)]))
     = Some (greeting ++ [user_msg (lit "news?"); assistant_msg (lit "T")],
             answered).
Proof. split; vm_compute; reflexivity. Qed.

(** C1 fails on the runs of the page. *)
Lemma transcript_invariant_fails : ~ transcript_invariant run.
Proof.
  intros H. pose proof overlapping_sends_run as Hrun.
  destruct (run (boot (Some (lit "123456")) 0) [] overlapping_sends)
    as [[w auth]|] eqn:E; [|discriminate].
  injection Hrun as Hw Ha. subst auth.
  destruct (H _ _ _ _ _ E) as [Hd _]. rewrite Hw in Hd.
  exact (proj1 overlapped_fits_nothing Hd).
Qed.

Lemma orderly_displays (w : World) (auth : list Message) :
  orderly w auth -> displays auth (messages (client w)).
Proof.
  intros [_ _ Hm|c _ _ _ _ _ Ho Hm|t u _ _ _ _ Ho Hm]; unfold displays.
  - left. exact Hm.
  - right. left. exists (req_userMessage c). congruence.
  - right. right. exists u, (ty_typed t). rewrite Hm, Ho, <- app_assoc.
    reflexivity.
Qed.

Lemma boot_orderly (ls : option jsstring) (m : N) : orderly (boot ls m) [].
Proof.
  apply orderly_settled; try reflexivity.
  unfold boot, mount_effect. run_act.
  destruct ls as [v|]; simpl; [destruct (js_not v)|]; reflexivity.
Qed.

Lemma not_succeeded_fails (f : Fetched) :
  succeeded f = false -> exists k, failure_of f = Some k.
Proof.
  destruct f as [|res]; simpl; [eauto|].
  destruct (ok res); simpl.
  - destruct (json res) as [h|]; [|eauto].
    rewrite bool_decide_eq_true_2 by eauto. discriminate.
  - destruct (text res); eauto.
Qed.

Lemma succeeded_reads (f : Fetched) :
  succeeded f = true ->
  exists res history,
    f = Resolved res /\ ok res = true /\ json res = Some history
    /\ response_history f = history.
Proof.
  destruct f as [|res]; simpl; [discriminate|].
  destruct (ok res) eqn:Hok; simpl; [|discriminate].
  destruct (json res) as [history|] eqn:Hj; [|intros H; exfalso].
  - intros _. exists res, history. rewrite Hj. auto.
  - apply bool_decide_eq_true_1 in H. destruct H. discriminate.
Qed.

(** A failed request on an orderly page puts the settled transcript back. *)
Lemma orderly_failure (w w' : World) (auth : list Message) (i : nat)
    (f : Fetched) :
  orderly w auth -> succeeded f = false ->
  step w (ChatSettled i f) = Some w' ->
  messages (client w') = auth /\ orderly w' auth.
Proof.
  intros Hw Hf Hstep. destruct (not_succeeded_fails f Hf) as [k Hk].
  simpl in Hstep.
  destruct (sends w !! i) as [c|] eqn:Hc; [|discriminate].
  simpl in Hstep. injection Hstep as <-.
  rewrite (handleSend_settle_failure c f k (client w) Hk).
  unfold state_of, timer_of. simpl.
  replace (match match k with NonSuccess _ => Returned | Exception => Normal None end
           with Normal (Some t) => t | _ => None end) with (@None Typing)
    by (destruct k; reflexivity).
  destruct Hw as [Hs _ _|c0 Hs Ht Hh Hcl Hp _ _|t u Hs _ _ _ _ _];
    rewrite Hs in Hc; try (destruct i; discriminate).
  destruct i as [|i]; [|destruct i; discriminate].
  injection Hc as ->. split; [exact Hp|].
  apply orderly_settled; simpl.
  - rewrite Hs. reflexivity.
  - rewrite Ht. reflexivity.
  - exact Hp.
Qed.

Lemma quiet_spec (w : World) :
  quiet w = true ->
  history_pending w = false /\ sends w = [] /\ timers w = []
  /\ clears w = 0%nat.
Proof.
  unfold quiet. rewrite !andb_true_iff, negb_true_iff, !bool_decide_eq_true.
  tauto.
Qed.

Lemma orderly_quiet (w : World) (auth : list Message) :
  orderly w auth -> sends w = [] -> timers w = [] ->
  messages (client w) = auth.
Proof. intros [?|? ?|? ? ? ?]; congruence. Qed.

Lemma step_typed_orderly (w : World) (auth : list Message) (v : jsstring) :
  orderly w auth -> orderly (with_client (setInput v (client w)) w) auth.
Proof.
  intros [Hs Ht Hm|c Hs Ht Hh Hc Hp Ho Hm|t u Hs Ht Hh Hc Ho Hm].
  - by apply orderly_settled.
  - by apply (orderly_sending _ _ c).
  - by apply (orderly_typing _ _ t u).
Qed.

Lemma step_submit_orderly (w w' : World) (auth : list Message) :
  orderly w auth -> quiet w = true -> step w Submit = Some w' ->
  orderly w' auth.
Proof.
  intros Hw Hq Hstep. apply quiet_spec in Hq as (Hh & Hs & Ht & Hc).
  pose proof (orderly_quiet w auth Hw Hs Ht) as Hm.
  simpl in Hstep. unfold send_disabled in Hstep.
  destruct (loading (client w)); [discriminate|].
  destruct (js_not (trim (input (client w)))) eqn:Hi; [discriminate|].
  simpl in Hstep. injection Hstep as <-.
  destruct (js_not (sessionId (client w))) eqn:Hsid.
  - assert (handleSend_submit (client w) = (client w, Returned)) as ->.
    { unfold handleSend_submit. run_act. rewrite Hi, Hsid. reflexivity. }
    apply orderly_settled; simpl; [by rewrite Hs | exact Ht | exact Hm].
  - unfold js_not in Hi, Hsid.
    apply bool_decide_eq_false_1 in Hi. apply bool_decide_eq_false_1 in Hsid.
    rewrite (handleSend_submit_passes (client w) Hi Hsid).
    unfold state_of, request_of. simpl. rewrite Hs, Hm. simpl.
    by eapply orderly_sending.
Qed.

Lemma step_chat_orderly (w w' : World) (auth : list Message) (i : nat)
    (f : Fetched) :
  orderly w auth -> step w (ChatSettled i f) = Some w' ->
  orderly w' (settled w (ChatSettled i f) auth).
Proof.
  intros Hw Hstep. destruct (succeeded f) eqn:Hf.
  - destruct (succeeded_reads f Hf) as (res & history & -> & Hok & Hj & Hh).
    simpl in Hstep. simpl settled.
    destruct (sends w !! i) as [c|] eqn:Hc; [|discriminate].
    simpl in Hf. rewrite Hf.
    simpl in Hstep. injection Hstep as <-.
    destruct Hw as [Hs _ _|c0 Hs Ht Hhp Hcl Hp Ho Hm|t u Hs _ _ _ _ _];
      rewrite Hs in Hc; try (destruct i; discriminate).
    destruct i as [|i]; [|destruct i; discriminate].
    injection Hc as ->. unfold adopted. rewrite Hh.
    destruct (last (default (optimistic c) history)) as [lastBot|] eqn:Hlast.
    + destruct (decide (role lastBot = lit "assistant")) as [Hrole|Hrole].
      * rewrite (handleSend_settle_animates c res history lastBot (client w)
                   Hok Hj Hlast Hrole).
        unfold state_of, timer_of, typeNextChar. simpl.
        destruct (content lastBot) as [|ch text']; simpl.
        -- apply orderly_settled; simpl; [by rewrite Hs | by rewrite Ht | done].
        -- eapply (orderly_typing _ _ _ (req_userMessage c)); simpl;
             [by rewrite Hs | by rewrite Ht | done | done | exact Ho | done].
      * rewrite (handleSend_settle_as_is c res history (client w) Hok Hj)
          by (intros m0; rewrite Hlast; intros [= <-]; exact Hrole).
        apply orderly_settled; simpl; [by rewrite Hs | by rewrite Ht | done].
    + rewrite (handleSend_settle_as_is c res history (client w) Hok Hj)
        by (intros m0; rewrite Hlast; discriminate).
      apply orderly_settled; simpl; [by rewrite Hs | by rewrite Ht | done].
  - destruct (orderly_failure w w' auth i f Hw Hf Hstep) as [_ Hw'].
    simpl. destruct (sends w !! i); [|exact Hw']. rewrite Hf. exact Hw'.
Qed.

Lemma step_tick_orderly (w w' : World) (auth : list Message) (j : nat) :
  orderly w auth -> step w (Tick j) = Some w' ->
  orderly w' (settled w (Tick j) auth).
Proof.
  intros Hw Hstep. simpl in Hstep. simpl settled.
  destruct (timers w !! j) as [t|] eqn:Hj; [|discriminate].
  simpl in Hstep. injection Hstep as <-.
  destruct Hw as [_ Ht _|c _ Ht _ _ _ _ _|t0 u Hs Ht Hh Hc Ho Hm];
    rewrite Ht in Hj; try (destruct j; discriminate).
  destruct j as [|j]; [|destruct j; discriminate].
  injection Hj as ->.
  destruct (ty_fullText t !! ty_index t) as [ch|] eqn:E.
  - rewrite (typeNextChar_types t ch _ E). simpl. rewrite Ht. simpl.
    eapply (orderly_typing _ _ _ u); simpl; try done.
  - rewrite (typeNextChar_done t _ E). simpl. rewrite Ht. simpl.
    by apply orderly_settled.
Qed.

Lemma step_reset_orderly (w w' : World) (auth : list Message) (m : N) :
  orderly w auth -> no_send w = true -> step w (ResetClick m) = Some w' ->
  orderly w' (settled w (ResetClick m) auth).
Proof.
  intros Hw Hq Hstep. unfold no_send in Hq.
  rewrite andb_true_iff, !bool_decide_eq_true in Hq. destruct Hq as [Hs Ht].
  pose proof (orderly_quiet w auth Hw Hs Ht) as Hm.
  simpl in Hstep. simpl settled.
  destruct (js_not (sessionId (client w))); injection Hstep as <-;
    by apply orderly_settled.
Qed.

Lemma step_clear_orderly (w w' : World) (auth : list Message) (f : Fetched)
    (m : N) :
  orderly w auth -> step w (ClearSettled f m) = Some w' -> orderly w' [].
Proof.
  intros Hw Hstep. simpl in Hstep.
  destruct (clears w) as [|n] eqn:Hn; [discriminate|].
  injection Hstep as <-.
  destruct Hw as [Hs Ht _|c _ _ _ Hc _ _ _|t u _ _ _ Hc _ _];
    [|congruence|congruence].
  by apply orderly_settled.
Qed.

Lemma step_history_orderly (w w' : World) (auth : list Message)
    (f : Fetched) :
  orderly w auth -> step w (HistorySettled f) = Some w' ->
  orderly w' (settled w (HistorySettled f) auth).
Proof.
  intros Hw Hstep. simpl in Hstep.
  destruct (history_pending w) eqn:Hh; [|discriminate].
  injection Hstep as <-.
  destruct Hw as [Hs Ht Hm|c _ _ Hh' _ _ _ _|t u _ _ Hh' _ _ _];
    [|congruence|congruence].
  apply orderly_settled; [exact Hs | exact Ht |].
  unfold fetchHistory_settle. run_act.
  destruct f as [|res]; simpl; [exact Hm|].
  destruct (ok res); simpl; [|exact Hm].
  destruct (json res); simpl; [reflexivity | exact Hm].
Qed.

(** A step taken in turn keeps the page orderly. *)
Lemma step_orderly (w w' : World) (auth : list Message) (e : Event) :
  orderly w auth -> in_turn w e = true -> step w e = Some w' ->
  orderly w' (settled w e auth).
Proof.
  intros Hw Hturn Hstep. destruct e as [v| |i f|j|m|f m|f].
  - injection Hstep as <-. by apply step_typed_orderly.
  - by apply (step_submit_orderly w).
  - by apply step_chat_orderly.
  - by apply step_tick_orderly.
  - by apply step_reset_orderly.
  - by apply (step_clear_orderly w w' auth f m).
  - by apply step_history_orderly.
Qed.

Lemma run_in_turn_orderly (tr : list Event) (w w' : World)
    (auth auth' : list Message) :
  orderly w auth -> run_in_turn w auth tr = Some (w', auth') ->
  orderly w' auth'.
Proof.
  revert w auth. induction tr as [|e tr IH]; intros w auth Hw Hrun.
  - injection Hrun as <- <-. exact Hw.
  - simpl in Hrun. destruct (in_turn w e) eqn:Hturn; [|discriminate].
    destruct (step w e) as [w1|] eqn:Hstep; [|discriminate].
    simpl in Hrun. apply (IH w1 (settled w e auth)); [|exact Hrun].
    by apply step_orderly.
Qed.

(** Why the turns: a send made before the history has arrived rolls back,
    when it fails, to the empty transcript it started from, not to the
    history on display since; and a reset made while a send is in flight is
    undone by the roll-back of that send. *)
Lemma send_before_history_rolls_back_too_far :
  outcome (run (boot (Some (lit "123456")) 0) []
             [ Typed (lit "news?"); Submit;
               HistorySettled
                 (Resolved (mkResponse 200 None (Some (Some greeting))));
               ChatSettled 0 (Resolved overloaded) ])
    = Some ([], greeting).
Proof. vm_compute. reflexivity. Qed.

Lemma reset_during_send_is_undone :
  outcome (run (boot (Some (lit "123456")) 0) []
             [ HistorySettled
                 (Resolved (mkResponse 200 None (Some (Some greeting))));
               Typed (lit "news?"); Submit;
               ResetClick 0; ClearSettled Rejected 0;
               ChatSettled 0 (Resolved overloaded) ])
    = Some (greeting, []).
Proof. vm_compute. reflexivity. Qed.

(** C1, amended. Along the runs in which a send starts only when nothing
    is outstanding (no unanswered request, no animation) and a reset only
    when no send is in flight or being animated, the displayed transcript
    is the last settled transcript, or that transcript followed by one user
    message, or that transcript followed by one user message and one
    assistant message; and a chat request that fails leaves the last
    settled transcript on display. *)
Theorem transcript_invariant_in_turn (ls : option jsstring) (m : N)
    (tr : list Event) (w : World) (auth : list Message) :
  run_in_turn (boot ls m) [] tr = Some (w, auth) ->
  displays auth (messages (client w))
  /\ forall (i : nat) (f : Fetched) (w' : World),
       succeeded f = false ->
       step w (ChatSettled i f) = Some w' ->
       messages (client w') = auth.
Proof.
  intros Hrun.
  pose proof (run_in_turn_orderly tr _ _ _ _ (boot_orderly ls m) Hrun) as Hw.
  split.
  - by apply orderly_displays.
  - intros i f w' Hf Hstep.
    by destruct (orderly_failure w w' auth i f Hw Hf Hstep).
Qed.

Lemma transcript_invariant_in_turn_witness :
  run_in_turn (boot (Some (lit "123456")) 0) [] taking_turns
    = Some (mid_reply, greeting)
  /\ messages (client mid_reply) =
       greeting ++ [user_msg (lit "news?"); assistant_msg (lit "Top")]
  /\ displays greeting (messages (client mid_reply)).
Proof.
  assert (run_in_turn (boot (Some (lit "123456")) 0) [] taking_turns
          = Some (mid_reply, greeting)) as Hrun
    by (vm_compute; reflexivity).
  split; [exact Hrun|]. split; [reflexivity|].
  exact (proj1 (transcript_invariant_in_turn (Some (lit "123456")) 0
                  taking_turns mid_reply greeting Hrun)).
Defined.

(** * Further properties of the page *)

(** ** Session ids *)

Lemma newSessionId_truthy (m : N) : js_not (newSessionId m) = false.
Proof. apply bool_decide_eq_false_2, toString_nonempty. Qed.

(** A numeral of six digits for a number from 100000 on does not start
    with [0]: five digits after a [0] stay below 100000. *)
Lemma six_digits_leading (ds : jsstring) :
  length ds = 6%nat -> Forall (fun c => is_digit c = true) ds ->
  100000 <= decimal_value ds ->
  exists d rest, ds = d :: rest /\ is_digit d = true /\ d ≠ 48.
Proof.
  intros Hlen Hdig Hv.
  destruct ds as [|d rest]; [discriminate|].
  exists d, rest. split; [reflexivity|].
  apply Forall_cons in Hdig as [Hd Hrest]. split; [exact Hd|].
  intros ->.
  assert (forall ds acc, Forall (fun c => is_digit c = true) ds ->
            fold_left (fun acc d => 10 * acc + (d - 48)) ds acc
            < (acc + 1) * 10 ^ N.of_nat (length ds)) as Hbound.
  { clear. induction ds as [|d ds IH]; intros acc Hds.
    - simpl. lia.
    - inversion Hds as [|? ? Hd Hds']; subst. simpl fold_left.
      specialize (IH (10 * acc + (d - 48)) Hds').
      unfold is_digit in Hd. apply andb_true_iff in Hd as [H1 H2].
      apply N.leb_le in H1, H2.
      change (length (d :: ds)) with (S (length ds)).
      rewrite Nat2N.inj_succ, N.pow_succ_r'.
      assert (0 < 10 ^ N.of_nat (length ds))
        by (apply N.neq_0_lt_0, N.pow_nonzero; discriminate).
      nia. }
  unfold decimal_value in Hv. simpl in Hv.
  specialize (Hbound rest 0 Hrest).
  simpl in Hlen. injection Hlen as Hlen. rewrite Hlen in Hbound.
  change (10 ^ N.of_nat 5) with 100000 in Hbound.
  change (10 * 0 + (48 - 48)) with 0 in Hv. lia.
Qed.

(** X5. For a draw of [Math.random()], the generated session id read as a
    decimal number is the floor of [100000 + r * 900000] computed without
    rounding, or one more; it lies between 100000 and 999999, and its
    first digit is not [0]. *)
Theorem newSessionId_numeral (m : N) :
  is_draw m ->
  (exact_floor m <= Z.of_N (decimal_value (newSessionId m))
   <= exact_floor m + 1)%Z
  /\ 100000 <= decimal_value (newSessionId m) <= 999999
  /\ exists d rest,
       newSessionId m = d :: rest /\ is_digit d = true /\ d ≠ 48.
Proof.
  intros Hm. pose proof (random_floor_range m Hm) as Hr.
  pose proof (proj2 (random_floor_draw m Hm)) as Hx.
  destruct (newSessionId_six_digits m Hm) as [Hlen Hdig].
  assert (decimal_value (newSessionId m) = random_floor m) as Hv
    by apply toString_value.
  rewrite Hv. split; [exact Hx|]. split; [lia|].
  apply six_digits_leading; [exact Hlen | exact Hdig |].
  rewrite Hv. lia.
Qed.

Lemma newSessionId_numeral_witness :
  100000 <= decimal_value (newSessionId 0x3F9E011C47D5B160) <= 999999.
Proof.
  apply (newSessionId_numeral 0x3F9E011C47D5B160). reflexivity.
Defined.

(** Both cases occur: the draw [263920946163083 / 2^53] gives 126371
    where the exact floor is 126370, and the draw [1/2] gives the exact
    floor 550000. *)
Lemma random_floor_rounds_up :
  random_floor 0x3F9E011C47D5B160 = 126371
  /\ exact_floor 0x3F9E011C47D5B160 = 126370%Z
  /\ random_floor 0x3FE0000000000000 = 550000
  /\ exact_floor 0x3FE0000000000000 = 550000%Z.
Proof. repeat split; vm_compute; reflexivity. Qed.

(** ** The mount effect and the history *)

(** X1. When [localStorage] holds a non-empty session id, the mount effect
    keeps it: it becomes the session id of the page, it is the id whose
    history is fetched, the stored entry is untouched, and the draw of
    [Math.random()] plays no part. *)
Theorem mount_keeps_stored_session (v : jsstring) (m : N) :
  v ≠ [] ->
  mount_effect m (first_render (Some v)) =
    (mkClient v [] [] false [] (Some v), Normal v).
Proof.
  intros Hv. unfold mount_effect, js_not. run_act.
  rewrite bool_decide_eq_false_2 by exact Hv. reflexivity.
Qed.

Lemma mount_keeps_stored_session_witness :
  mount_effect 7 (first_render (Some (lit "123456"))) =
    (mkClient (lit "123456") [] [] false [] (Some (lit "123456")),
     Normal (lit "123456")).
Proof. apply (mount_keeps_stored_session (lit "123456") 7). discriminate. Defined.

(** X2. When [localStorage] holds no session id, or an empty one, the mount
    effect generates an id of six decimal digits, stores it, makes it the
    session id of the page and fetches its history. *)
Theorem mount_generates_session (ls : option jsstring) (m : N) :
  ls = None \/ ls = Some [] -> is_draw m ->
  mount_effect m (first_render ls) =
    (mkClient (newSessionId m) [] [] false [] (Some (newSessionId m)),
     Normal (newSessionId m))
  /\ six_digits (newSessionId m).
Proof.
  intros Hls Hm. split; [|exact (newSessionId_six_digits m Hm)].
  destruct Hls as [-> | ->]; reflexivity.
Qed.

Lemma mount_generates_session_witness :
  mount_effect 0x3FE0000000000000 (first_render (Some [])) =
    (mkClient (lit "550000") [] [] false [] (Some (lit "550000")),
     Normal (lit "550000"))
  /\ six_digits (lit "550000").
Proof.
  apply (mount_generates_session (Some []) 0x3FE0000000000000);
    [by right | reflexivity].
Defined.

(** X3. Reloading the page after a reset finds the session of the reset:
    whatever the clear request did and whatever the page held, a mount on
    the storage a reset leaves takes the id that reset generated, and
    draws no new one. *)
Theorem reload_after_reset (clear : Fetched) (m m' : N) (s : Client) :
  mount_effect m'
    (first_render (stored (state_of (handleResetSession clear m s)))) =
    (mkClient (newSessionId m) [] [] false [] (Some (newSessionId m)),
     Normal (newSessionId m)).
Proof.
  rewrite handleResetSession_unfold. unfold mount_effect. run_act.
  rewrite newSessionId_truthy. reflexivity.
Qed.

(** X4. [fetchHistory] changes the transcript or nothing: when the response
    has a success status and a readable body, the transcript becomes its
    history, or the empty transcript when it has none; in every other case
    (rejected fetch, non-success status, unreadable body) the state is
    left as it is, and in no case is an error set. *)
Theorem fetchHistory_only_sets_transcript (f : Fetched) (s : Client) :
  state_of (fetchHistory_settle f s) =
    if succeeded f
    then setMessages (default [] (response_history f)) s
    else s.
Proof.
  unfold fetchHistory_settle. run_act.
  destruct f as [|res]; simpl; [reflexivity|].
  destruct (ok res); simpl; [|reflexivity].
  destruct (json res) as [history|]; reflexivity.
Qed.

(** ** The state a send leaves *)

Lemma Client_eta (s : Client) :
  s = mkClient (sessionId s) (messages s) (input s) (loading s) (error s)
        (stored s).
Proof. destruct s; reflexivity. Qed.

Lemma failure_not_succeeded (f : Fetched) (k : Failure) :
  failure_of f = Some k -> succeeded f = false.
Proof.
  destruct f as [|res]; simpl; [reflexivity|].
  destruct (ok res); [|reflexivity].
  destruct (json res); [discriminate | reflexivity].
Qed.

(** The whole state after [sendMessage], field by field. *)
Lemma sendMessage_state (s : Client) (f : Fetched) :
  trim (input s) ≠ [] -> sessionId s ≠ [] ->
  let shown :=
    default (messages s ++ [user_msg (input s)]) (response_history f) in
  sendMessage f s =
    (mkClient (sessionId s)
       (if succeeded f then shown else messages s)
       (if succeeded f && ends_with_reply shown then [] else input s)
       false
       (match failure_of f with Some k => failure_message k | None => [] end)
       (stored s),
     None).
Proof.
  intros Ht Hs shown. unfold sendMessage.
  rewrite (handleSend_submit_passes s Ht Hs). unfold request_of, state_of.
  simpl snd. simpl fst. cbv iota beta.
  set (c := mkSending _ _ _ _). set (s1 := mkClient _ _ _ _ _ _).
  destruct (failure_of f) as [k|] eqn:Hk.
  - rewrite (failure_not_succeeded f k Hk).
    rewrite (handleSend_settle_failure c f k s1 Hk).
    unfold timer_of. simpl snd.
    replace (match match k with NonSuccess _ => Returned | Exception => Normal None end
             with Normal (Some t) => t | _ => None end) with (@None Typing)
      by (destruct k; reflexivity).
    reflexivity.
  - destruct f as [|res]; [discriminate|]. simpl in Hk.
    destruct (ok res) eqn:Hok; [|destruct (text res); discriminate].
    destruct (json res) as [history|] eqn:Hj; [|discriminate].
    assert (succeeded (Resolved res) = true) as ->.
    { simpl. rewrite Hok, Hj. by rewrite bool_decide_eq_true_2 by eauto. }
    assert (shown = default (optimistic c) history) as ->.
    { unfold shown. simpl. by rewrite Hj. }
    unfold ends_with_reply.
    destruct (last (default (optimistic c) history)) as [lastBot|] eqn:Hlast.
    + destruct (decide (role lastBot = lit "assistant")) as [Hrole|Hrole].
      * rewrite bool_decide_eq_true_2 by exact Hrole. simpl andb.
        rewrite (ticks_left_settle c res history lastBot s1 Hok Hj Hlast Hrole).
        destruct (animation_runs_out c res history lastBot s1
                    (length (content lastBot)) Hok Hj Hlast Hrole) as [Hm Hn];
          [lia|].
        pose proof (run_timer_frame (length (content lastBot))
                      (timer_of (handleSend_settle c (Resolved res) s1))
                      (state_of (handleSend_settle c (Resolved res) s1)))
          as (F1 & F2 & F3 & F4 & F5).
        assert (state_of (handleSend_settle c (Resolved res) s1) =
                mkClient (sessionId s)
                  (messages (state_of (handleSend_settle c (Resolved res) s1)))
                  [] false [] (stored s)) as Hst.
        { rewrite (handleSend_settle_animates c res history lastBot s1 Hok Hj
                     Hlast Hrole). reflexivity. }
        unfold state_of in *.
        set (r := handleSend_settle c (Resolved res) s1) in *.
        set (p := run_timer _ _ _) in *.
        rewrite Hst in F1, F2, F3, F4, F5. simpl in F1, F2, F3, F4, F5.
        apply injective_projections; [|exact Hn].
        rewrite (Client_eta (fst p)). simpl.
        by rewrite Hm, F1, F2, F3, F4, F5.
      * rewrite bool_decide_eq_false_2 by exact Hrole. simpl andb.
        rewrite (handleSend_settle_as_is c res history s1 Hok Hj)
          by (intros m0; rewrite Hlast; intros [= <-]; exact Hrole).
        reflexivity.
    + rewrite (handleSend_settle_as_is c res history s1 Hok Hj)
        by (intros m0; rewrite Hlast; discriminate).
      reflexivity.
Qed.

(** X6. A send that fails changes nothing but the error text and the
    loading flag: the session id, the transcript, the text in the input
    field and the stored id are what they were at the submit, so the same
    text can be sent again. *)
Theorem failed_send_changes_only_error (s : Client) (f : Fetched)
    (k : Failure) :
  trim (input s) ≠ [] -> sessionId s ≠ [] -> failure_of f = Some k ->
  sendMessage f s =
    (setError (failure_message k) (setLoading false s), None).
Proof.
  intros Ht Hs Hk. rewrite (sendMessage_state s f Ht Hs).
  rewrite Hk, (failure_not_succeeded f k Hk). reflexivity.
Qed.

Lemma failed_send_changes_only_error_witness :
  sendMessage Rejected asking = (setError network_message asking, None).
Proof.
  apply (failed_send_changes_only_error asking Rejected Exception);
    [discriminate | discriminate | reflexivity].
Defined.

(** X7. A failed send leaves no trace on the next one: sending again after
    a failure ends in the very state, and with the very timer, that the
    second request would have produced had the first send never been
    made. *)
Theorem retry_after_failure (s : Client) (f1 f2 : Fetched) (k : Failure) :
  trim (input s) ≠ [] -> sessionId s ≠ [] -> failure_of f1 = Some k ->
  sendMessage f2 (fst (sendMessage f1 s)) = sendMessage f2 s.
Proof.
  intros Ht Hs Hk. rewrite (sendMessage_state s f1 Ht Hs).
  rewrite (failure_not_succeeded f1 k Hk). simpl fst.
  rewrite (sendMessage_state s f2 Ht Hs).
  apply (sendMessage_state (mkClient _ _ _ _ _ _) f2); assumption.
Qed.

Lemma retry_after_failure_witness :
  sendMessage (Resolved answer) (fst (sendMessage (Resolved overloaded) asking))
    = sendMessage (Resolved answer) asking.
Proof.
  apply (retry_after_failure asking (Resolved overloaded) (Resolved answer)
           (NonSuccess 503));
    [discriminate | discriminate | reflexivity].
Defined.

(** X8. A send that succeeds leaves no error on display and the loading
    flag down, and keeps the session id and the stored id, whether the
    reply was animated or not and whatever error was on display before. *)
Theorem successful_send_clears_error (s : Client) (f : Fetched) :
  trim (input s) ≠ [] -> sessionId s ≠ [] -> succeeded f = true ->
  error (fst (sendMessage f s)) = []
  /\ loading (fst (sendMessage f s)) = false
  /\ sessionId (fst (sendMessage f s)) = sessionId s
  /\ stored (fst (sendMessage f s)) = stored s.
Proof.
  intros Ht Hs Hf. rewrite (sendMessage_state s f Ht Hs). simpl.
  destruct (failure_of f) as [k|] eqn:Hk; [|auto].
  rewrite (failure_not_succeeded f k Hk) in Hf. discriminate.
Qed.

Lemma successful_send_clears_error_witness :
  error (fst (sendMessage (Resolved answer)
                (setError network_message asking))) = [].
Proof.
  apply (successful_send_clears_error (setError network_message asking)
           (Resolved answer));
    [discriminate | discriminate | reflexivity].
Defined.

(** X9. After a send the input field is empty exactly when the request
    succeeded and the transcript the client adopted (the history of the
    response, or the optimistic transcript in its absence) ends in an
    assistant message; in every other case, failure or success, it holds
    the text that was sent. *)
Theorem input_after_send (s : Client) (f : Fetched) :
  trim (input s) ≠ [] -> sessionId s ≠ [] ->
  input (fst (sendMessage f s)) =
    if succeeded f
       && ends_with_reply
            (default (messages s ++ [user_msg (input s)]) (response_history f))
    then []
    else input s.
Proof.
  intros Ht Hs. rewrite (sendMessage_state s f Ht Hs). reflexivity.
Qed.

Lemma input_after_send_witness :
  input (fst (sendMessage (Resolved answer) asking)) = []
  /\ input (fst (sendMessage (Resolved bare_answer) asking)) = lit "news?".
Proof.
  split.
  - apply (input_after_send asking (Resolved answer)); discriminate.
  - apply (input_after_send asking (Resolved bare_answer)); discriminate.
Defined.

(** ** What every run of the page keeps *)

(** A property of the page that the first state has and every step keeps
    holds at the end of every run; [Q] restricts the events of the run. *)
Lemma run_keeps (P : World -> Prop) (Q : Event -> Prop) :
  (forall w e w', P w -> Q e -> step w e = Some w' -> P w') ->
  forall tr w auth w' auth',
    P w -> Forall Q tr -> run w auth tr = Some (w', auth') -> P w'.
Proof.
  intros Hstep. induction tr as [|e tr IH]; intros w auth w' auth' Hw Htr Hrun.
  - injection Hrun as <- _. exact Hw.
  - simpl in Hrun. destruct (step w e) as [w1|] eqn:E; [|discriminate].
    simpl in Hrun. inversion Htr as [|? ? He Htr']; subst.
    exact (IH w1 _ w' auth' (Hstep w e w1 Hw He E) Htr' Hrun).
Qed.

Lemma Forall_any_event (tr : list Event) : Forall (fun _ => True) tr.
Proof. induction tr; constructor; auto. Qed.

(** What [handleSend_submit] does to the fields other than the
    transcript. *)
Lemma handleSend_submit_fields (s : Client) :
  sessionId (state_of (handleSend_submit s)) = sessionId s
  /\ stored (state_of (handleSend_submit s)) = stored s
  /\ input (state_of (handleSend_submit s)) = input s
  /\ (request_of (handleSend_submit s) = None ->
      state_of (handleSend_submit s) = s)
  /\ (forall c, request_of (handleSend_submit s) = Some c ->
      loading (state_of (handleSend_submit s)) = true
      /\ error (state_of (handleSend_submit s)) = []).
Proof.
  unfold handleSend_submit. run_act.
  destruct (js_not (trim (input s)) || js_not (sessionId s)); simpl;
    repeat split; auto; discriminate.
Qed.

(** What the second half of [handleSend] does to the fields other than the
    transcript and the input. *)
Lemma handleSend_settle_fields (c : Sending) (f : Fetched) (s : Client) :
  sessionId (state_of (handleSend_settle c f s)) = sessionId s
  /\ stored (state_of (handleSend_settle c f s)) = stored s
  /\ loading (state_of (handleSend_settle c f s)) = false
  /\ error (state_of (handleSend_settle c f s)) =
       match failure_of f with
       | Some k => failure_message k
       | None => error s
       end.
Proof.
  destruct (failure_of f) as [k|] eqn:Hk.
  - rewrite (handleSend_settle_failure c f k s Hk). repeat split.
  - destruct f as [|res]; [discriminate|]. simpl in Hk.
    destruct (ok res) eqn:Hok; [|destruct (text res); discriminate].
    destruct (json res) as [history|] eqn:Hj; [|discriminate].
    destruct (last (default (optimistic c) history)) as [lastBot|] eqn:Hlast.
    + destruct (decide (role lastBot = lit "assistant")) as [Hrole|Hrole].
      * rewrite (handleSend_settle_animates c res history lastBot s Hok Hj
                   Hlast Hrole). repeat split.
      * rewrite (handleSend_settle_as_is c res history s Hok Hj)
          by (intros m0; rewrite Hlast; intros [= <-]; exact Hrole).
        repeat split.
    + rewrite (handleSend_settle_as_is c res history s Hok Hj)
        by (intros m0; rewrite Hlast; discriminate).
      repeat split.
Qed.

(** The timer [handleSend] arms has typed the first character. *)
Lemma handleSend_settle_timer (c : Sending) (f : Fetched) (s : Client)
    (t : Typing) :
  timer_of (handleSend_settle c f s) = Some t -> timer_ok t.
Proof.
  destruct (failure_of f) as [k|] eqn:Hk.
  - rewrite (handleSend_settle_failure c f k s Hk). unfold timer_of. simpl.
    destruct k; discriminate.
  - destruct f as [|res]; [discriminate|]. simpl in Hk.
    destruct (ok res) eqn:Hok; [|destruct (text res); discriminate].
    destruct (json res) as [history|] eqn:Hj; [|discriminate].
    destruct (last (default (optimistic c) history)) as [lastBot|] eqn:Hlast.
    + destruct (decide (role lastBot = lit "assistant")) as [Hrole|Hrole].
      * rewrite (handleSend_settle_animates c res history lastBot s Hok Hj
                   Hlast Hrole).
        unfold timer_of, typeNextChar. simpl.
        destruct (content lastBot) as [|ch text'] eqn:E; simpl;
          [discriminate|].
        intros [= <-]. unfold timer_ok, typing_ok. simpl.
        repeat split; [lia | lia |].
        rewrite Hlast. f_equal. destruct lastBot as [r0 c0].
        simpl in Hrole, E. by subst.
      * rewrite (handleSend_settle_as_is c res history s Hok Hj)
          by (intros m0; rewrite Hlast; intros [= <-]; exact Hrole).
        discriminate.
    + rewrite (handleSend_settle_as_is c res history s Hok Hj)
        by (intros m0; rewrite Hlast; discriminate).
      discriminate.
Qed.

(** A firing of the timer changes the transcript only. *)
Lemma typeNextChar_fields (t : Typing) (s : Client) :
  state_of (typeNextChar t s) =
    setMessages (messages (state_of (typeNextChar t s))) s.
Proof.
  unfold typeNextChar. destruct (ty_fullText t !! ty_index t); reflexivity.
Qed.

(** [fetchHistory] changes the transcript only. *)
Lemma fetchHistory_settle_fields (f : Fetched) (s : Client) :
  state_of (fetchHistory_settle f s) =
    setMessages (messages (state_of (fetchHistory_settle f s))) s.
Proof.
  unfold fetchHistory_settle. run_act.
  destruct f as [|res]; simpl; [by destruct s|].
  destruct (ok res); simpl; [|by destruct s].
  destruct (json res); simpl; [reflexivity | by destruct s].
Qed.

Lemma boot_session_kept (ls : option jsstring) (m : N) :
  session_kept (boot ls m).
Proof.
  unfold session_kept, boot, mount_effect. run_act.
  destruct ls as [v|]; simpl.
  - unfold js_not. case_bool_decide as Hv; simpl.
    + split; [apply toString_nonempty | reflexivity].
    + split; [exact Hv | reflexivity].
  - split; [apply toString_nonempty | reflexivity].
Qed.

Lemma step_session_kept (w : World) (e : Event) (w' : World) :
  session_kept w -> step w e = Some w' -> session_kept w'.
Proof.
  unfold session_kept. intros [Hs Hst] Hstep.
  destruct e as [v| |i f|j|m|f m|f]; simpl in Hstep.
  - injection Hstep as <-. auto.
  - destruct (send_disabled (client w)); [discriminate|].
    injection Hstep as <-. simpl.
    destruct (handleSend_submit_fields (client w)) as (-> & -> & _). auto.
  - destruct (sends w !! i) as [c|]; [|discriminate].
    simpl in Hstep. injection Hstep as <-. simpl.
    destruct (handleSend_settle_fields c f (client w)) as (-> & -> & _). auto.
  - destruct (timers w !! j) as [t|]; [|discriminate].
    simpl in Hstep. injection Hstep as <-. simpl.
    rewrite typeNextChar_fields. auto.
  - destruct (js_not (sessionId (client w))); injection Hstep as <-; simpl;
      [|auto].
    split; [apply toString_nonempty | reflexivity].
  - destruct (clears w); [discriminate|]. injection Hstep as <-. simpl.
    split; [apply toString_nonempty | reflexivity].
  - destruct (history_pending w); [|discriminate]. injection Hstep as <-.
    simpl. rewrite fetchHistory_settle_fields. auto.
Qed.

(** X10. In every state the page reaches, whatever the order of the events,
    the session id is a non-empty string and [localStorage] holds that
    very id. *)
Theorem session_always_kept (ls : option jsstring) (m : N) (tr : list Event)
    (w : World) (auth : list Message) :
  run (boot ls m) [] tr = Some (w, auth) ->
  sessionId (client w) ≠ []
  /\ stored (client w) = Some (sessionId (client w)).
Proof.
  intros Hrun.
  apply (run_keeps session_kept (fun _ => True)
           (fun w0 e w1 H _ => step_session_kept w0 e w1 H)
           tr (boot ls m) [] w auth (boot_session_kept ls m)
           (Forall_any_event tr) Hrun).
Qed.

Lemma session_always_kept_witness :
  sessionId (client mid_reply) ≠ []
  /\ stored (client mid_reply) = Some (sessionId (client mid_reply)).
Proof.
  apply (session_always_kept (Some (lit "123456")) 0 taking_turns mid_reply
           greeting).
  vm_compute. reflexivity.
Defined.

Lemma step_one_request (w : World) (e : Event) (w' : World) :
  one_request w -> step w e = Some w' -> one_request w'.
Proof.
  unfold one_request. intros Hw Hstep.
  destruct e as [v| |i f|j|m|f m|f]; simpl in Hstep.
  - injection Hstep as <-. exact Hw.
  - unfold send_disabled in Hstep.
    destruct (loading (client w)) eqn:Hl; [discriminate|].
    destruct (js_not (trim (input (client w)))); [discriminate|].
    simpl in Hstep. injection Hstep as <-. simpl.
    destruct Hw as [[Hs _]|(c & _ & Hc)]; [|discriminate].
    rewrite Hs. simpl.
    destruct (handleSend_submit_fields (client w)) as (_ & _ & _ & Hn & Hc).
    destruct (request_of (handleSend_submit (client w))) as [c|]; simpl.
    + right. exists c. split; [reflexivity|]. by apply (Hc c).
    + left. split; [reflexivity|]. by rewrite Hn.
  - destruct (sends w !! i) as [c|] eqn:Hi; [|discriminate].
    simpl in Hstep. injection Hstep as <-. simpl.
    destruct (handleSend_settle_fields c f (client w)) as (_ & _ & -> & _).
    left. split; [|reflexivity].
    destruct Hw as [[Hs _]|(c0 & Hs & _)]; rewrite Hs in Hi |- *.
    + destruct i; discriminate.
    + destruct i as [|i]; [reflexivity | destruct i; discriminate].
  - destruct (timers w !! j) as [t|]; [|discriminate].
    simpl in Hstep. injection Hstep as <-. simpl.
    rewrite typeNextChar_fields. exact Hw.
  - destruct (js_not (sessionId (client w))); injection Hstep as <-; exact Hw.
  - destruct (clears w); [discriminate|]. injection Hstep as <-. exact Hw.
  - destruct (history_pending w); [|discriminate]. injection Hstep as <-.
    simpl. rewrite fetchHistory_settle_fields. exact Hw.
Qed.

Lemma boot_one_request (ls : option jsstring) (m : N) :
  one_request (boot ls m).
Proof.
  left. split; [reflexivity|].
  unfold boot, mount_effect. run_act.
  destruct ls as [v|]; simpl; [destruct (js_not v)|]; reflexivity.
Qed.

(** X11. In every state the page reaches, whatever the order of the events,
    at most one chat request is in flight; the "Bot is thinking" line is
    shown exactly while one is, and then the send button is disabled and
    the empty-state hint is hidden. *)
Theorem one_request_in_flight (ls : option jsstring) (m : N)
    (tr : list Event) (w : World) (auth : list Message) :
  run (boot ls m) [] tr = Some (w, auth) ->
  (length (sends w) <= 1)%nat
  /\ (view_loading (render (client w)) = true <-> sends w ≠ [])
  /\ (sends w ≠ [] ->
      view_send_disabled (render (client w)) = true
      /\ view_empty_state (render (client w)) = false).
Proof.
  intros Hrun.
  pose proof (run_keeps one_request (fun _ => True)
                (fun w0 e w1 H _ => step_one_request w0 e w1 H)
                tr (boot ls m) [] w auth (boot_one_request ls m)
                (Forall_any_event tr) Hrun) as Hw.
  unfold render, send_disabled. simpl.
  destruct Hw as [[Hs Hl]|(c & Hs & Hl)]; rewrite Hs, Hl; simpl.
  - repeat split; try lia; try congruence; try discriminate.
  - rewrite andb_false_r. repeat split; auto; discriminate.
Qed.

Lemma one_request_in_flight_witness :
  (length (sends mid_reply) <= 1)%nat
  /\ (view_loading (render (client mid_reply)) = true <-> sends mid_reply ≠ [])
  /\ (sends mid_reply ≠ [] ->
      view_send_disabled (render (client mid_reply)) = true
      /\ view_empty_state (render (client mid_reply)) = false).
Proof.
  apply (one_request_in_flight (Some (lit "123456")) 0 taking_turns mid_reply
           greeting).
  vm_compute. reflexivity.
Defined.

Lemma step_timers_ok (w : World) (e : Event) (w' : World) :
  Forall timer_ok (timers w) -> step w e = Some w' ->
  Forall timer_ok (timers w').
Proof.
  intros Hw Hstep.
  destruct e as [v| |i f|j|m|f m|f]; simpl in Hstep.
  - injection Hstep as <-. exact Hw.
  - destruct (send_disabled (client w)); [discriminate|].
    injection Hstep as <-. exact Hw.
  - destruct (sends w !! i) as [c|]; [|discriminate].
    simpl in Hstep. injection Hstep as <-. simpl.
    apply Forall_app. split; [exact Hw|].
    destruct (timer_of (handleSend_settle c f (client w))) as [t|] eqn:Ht;
      simpl; [|constructor].
    constructor; [|constructor].
    exact (handleSend_settle_timer c f (client w) t Ht).
  - destruct (timers w !! j) as [t|] eqn:Hj; [|discriminate].
    simpl in Hstep. injection Hstep as <-. simpl.
    pose proof (Forall_lookup_1 _ _ _ _ Hw Hj) as (Hok & Hidx & Hlast).
    destruct (ty_fullText t !! ty_index t) as [ch|] eqn:E.
    + rewrite (typeNextChar_types t ch _ E). simpl.
      apply Forall_insert; [exact Hw|].
      unfold timer_ok, typing_ok. simpl. apply lookup_lt_Some in E as Hlt.
      repeat split; [|lia|lia|exact Hlast].
      rewrite (take_S_r _ _ ch) by exact E. by rewrite <- Hok.
    + rewrite (typeNextChar_done t _ E). simpl.
      by apply Forall_delete.
  - destruct (js_not (sessionId (client w))); injection Hstep as <-; exact Hw.
  - destruct (clears w); [discriminate|]. injection Hstep as <-. exact Hw.
  - destruct (history_pending w); [|discriminate]. injection Hstep as <-.
    exact Hw.
Qed.

(** X12. In every state the page reaches, whatever the order of the events,
    each armed animation timer has typed exactly the first [index]
    characters of its reply, at least one and at most all of them, and the
    transcript it will put on display at its end closes with the assistant
    message holding that whole reply. *)
Theorem timers_always_ok (ls : option jsstring) (m : N) (tr : list Event)
    (w : World) (auth : list Message) :
  run (boot ls m) [] tr = Some (w, auth) ->
  Forall timer_ok (timers w).
Proof.
  intros Hrun.
  apply (run_keeps (fun w0 => Forall timer_ok (timers w0)) (fun _ => True)
           (fun w0 e w1 H _ => step_timers_ok w0 e w1 H)
           tr (boot ls m) [] w auth (Forall_nil_2 _) (Forall_any_event tr)
           Hrun).
Qed.

Lemma timers_always_ok_witness : Forall timer_ok (timers mid_reply).
Proof.
  apply (timers_always_ok (Some (lit "123456")) 0 taking_turns mid_reply
           greeting).
  vm_compute. reflexivity.
Defined.

Lemma failure_message_known (k : Failure) : failure_message k ∈ error_texts.
Proof.
  unfold error_texts. destruct k as [st|]; simpl.
  - destruct (st =? 503); repeat constructor.
  - repeat constructor.
Qed.

Lemma step_error_known (w : World) (e : Event) (w' : World) :
  error (client w) ∈ error_texts -> step w e = Some w' ->
  error (client w') ∈ error_texts.
Proof.
  intros Hw Hstep.
  assert ([] ∈ error_texts) as Hnil by (unfold error_texts; constructor).
  destruct e as [v| |i f|j|m|f m|f]; simpl in Hstep.
  - injection Hstep as <-. exact Hw.
  - destruct (send_disabled (client w)); [discriminate|].
    injection Hstep as <-. simpl.
    destruct (handleSend_submit_fields (client w)) as (_ & _ & _ & Hn & Hc).
    destruct (request_of (handleSend_submit (client w))) as [c|].
    + by rewrite (proj2 (Hc c eq_refl)).
    + by rewrite Hn.
  - destruct (sends w !! i) as [c|]; [|discriminate].
    simpl in Hstep. injection Hstep as <-. simpl.
    destruct (handleSend_settle_fields c f (client w)) as (_ & _ & _ & ->).
    destruct (failure_of f); [apply failure_message_known | exact Hw].
  - destruct (timers w !! j) as [t|]; [|discriminate].
    simpl in Hstep. injection Hstep as <-. simpl.
    rewrite typeNextChar_fields. exact Hw.
  - destruct (js_not (sessionId (client w))); injection Hstep as <-;
      [exact Hnil | exact Hw].
  - destruct (clears w); [discriminate|]. injection Hstep as <-. exact Hnil.
  - destruct (history_pending w); [|discriminate]. injection Hstep as <-.
    simpl. rewrite fetchHistory_settle_fields. exact Hw.
Qed.

(** X13. In every state the page reaches, whatever the order of the events,
    the error is the empty string or one of the three messages of
    [handleSend] (overload, generic failure, network); from there the
    settlement of the history fetch, whatever it is, leaves the error as it
    was, and the settlement of a clear request, whatever it is, leaves it
    empty: a failed history fetch or clear request never shows. *)
Theorem error_always_known (ls : option jsstring) (m : N) (tr : list Event)
    (w : World) (auth : list Message) :
  run (boot ls m) [] tr = Some (w, auth) ->
  error (client w) ∈ error_texts
  /\ (forall f w', step w (HistorySettled f) = Some w' ->
                   error (client w') = error (client w))
  /\ (forall f m' w', step w (ClearSettled f m') = Some w' ->
                      error (client w') = []).
Proof.
  intros Hrun. split; [|split].
  - apply (run_keeps (fun w0 => error (client w0) ∈ error_texts)
             (fun _ => True)
             (fun w0 e w1 H _ => step_error_known w0 e w1 H)
             tr (boot ls m) [] w auth); [|apply Forall_any_event|exact Hrun].
    unfold boot, mount_effect, error_texts. run_act.
    destruct ls as [v|]; simpl; [destruct (js_not v)|]; simpl; constructor.
  - intros f w' Hstep. simpl in Hstep.
    destruct (history_pending w); [|discriminate]. injection Hstep as <-.
    simpl. by rewrite fetchHistory_settle_fields.
  - intros f m' w' Hstep. simpl in Hstep.
    destruct (clears w); [discriminate|]. by injection Hstep as <-.
Qed.

Lemma error_always_known_witness :
  error (client mid_reply) ∈ error_texts
  /\ (forall f w', step mid_reply (HistorySettled f) = Some w' ->
                   error (client w') = error (client mid_reply))
  /\ (forall f m' w', step mid_reply (ClearSettled f m') = Some w' ->
                      error (client w') = []).
Proof.
  apply (error_always_known (Some (lit "123456")) 0 taking_turns mid_reply
           greeting).
  vm_compute. reflexivity.
Defined.

Lemma step_six_digits (w : World) (e : Event) (w' : World) :
  six_digits (sessionId (client w)) -> draw_ok e -> step w e = Some w' ->
  six_digits (sessionId (client w')).
Proof.
  intros Hw He Hstep.
  destruct e as [v| |i f|j|m|f m|f]; simpl in Hstep, He.
  - injection Hstep as <-. exact Hw.
  - destruct (send_disabled (client w)); [discriminate|].
    injection Hstep as <-. simpl.
    by destruct (handleSend_submit_fields (client w)) as (-> & _).
  - destruct (sends w !! i) as [c|]; [|discriminate].
    simpl in Hstep. injection Hstep as <-. simpl.
    by destruct (handleSend_settle_fields c f (client w)) as (-> & _).
  - destruct (timers w !! j) as [t|]; [|discriminate].
    simpl in Hstep. injection Hstep as <-. simpl.
    rewrite typeNextChar_fields. exact Hw.
  - destruct (js_not (sessionId (client w))); injection Hstep as <-;
      [|exact Hw].
    exact (newSessionId_six_digits m He).
  - destruct (clears w); [discriminate|]. injection Hstep as <-.
    exact (newSessionId_six_digits m He).
  - destruct (history_pending w); [|discriminate]. injection Hstep as <-.
    simpl. rewrite fetchHistory_settle_fields. exact Hw.
Qed.

(** X14. When [localStorage] starts without a session id, with an empty
    one or with one of six decimal digits, and the draws of [Math.random()]
    are below one, the session id shown in the header is six decimal digits
    in every state the page reaches, through any number of resets. *)
Theorem session_always_six_digits (ls : option jsstring) (m : N)
    (tr : list Event) (w : World) (auth : list Message) :
  match ls with
  | Some v => v = [] \/ six_digits v
  | None => True
  end ->
  is_draw m -> Forall draw_ok tr ->
  run (boot ls m) [] tr = Some (w, auth) ->
  six_digits (view_session (render (client w))).
Proof.
  intros Hls Hm Htr Hrun.
  apply (run_keeps (fun w0 => six_digits (sessionId (client w0))) draw_ok
           step_six_digits tr (boot ls m) [] w auth); try assumption.
  unfold boot, mount_effect. run_act.
  destruct ls as [v|]; simpl.
  - unfold js_not. case_bool_decide as Hv; simpl.
    + exact (newSessionId_six_digits m Hm).
    + destruct Hls as [Hls|Hls]; [contradiction | exact Hls].
  - exact (newSessionId_six_digits m Hm).
Qed.

Lemma session_always_six_digits_witness :
  six_digits (view_session (render (client mid_reply))).
Proof.
  apply (session_always_six_digits (Some (lit "123456")) 0 taking_turns
           mid_reply greeting).
  - right. split; [reflexivity | repeat constructor].
  - reflexivity.
  - repeat constructor.
  - vm_compute. reflexivity.
Defined.

(** ** Single events *)

(** X15. A firing of an armed timer never reads what is on display: it
    replaces the transcript by the timer's own optimistic transcript
    followed by the text typed so far and the next character, or, when
    the text is exhausted, by the timer's final transcript and then
    disarms; it touches nothing else on the page, neither the requests in
    flight nor the other timers' number. *)
Theorem tick_replaces_transcript (w : World) (j : nat) (t : Typing) :
  timers w !! j = Some t ->
  exists w',
    step w (Tick j) = Some w'
    /\ client w' = setMessages (messages (client w')) (client w)
    /\ messages (client w') =
         match ty_fullText t !! ty_index t with
         | Some ch => ty_optimistic t ++ [assistant_msg (ty_typed t ++ [ch])]
         | None => ty_fullHistory t
         end
    /\ length (timers w') =
         match ty_fullText t !! ty_index t with
         | Some _ => length (timers w)
         | None => pred (length (timers w))
         end
    /\ sends w' = sends w /\ clears w' = clears w
    /\ history_pending w' = history_pending w.
Proof.
  intros Hj. simpl. rewrite Hj. simpl. eexists. split; [reflexivity|].
  simpl. split; [apply typeNextChar_fields|].
  unfold typeNextChar. apply lookup_lt_Some in Hj as Hlt.
  destruct (ty_fullText t !! ty_index t); simpl.
  - rewrite length_insert. repeat split.
  - rewrite length_delete by eauto using lookup_lt_is_Some_2.
    repeat split. lia.
Qed.

Lemma tick_replaces_transcript_witness :
  exists w',
    step mid_reply (Tick 0) = Some w'
    /\ messages (client w') =
         greeting ++ [user_msg (lit "news?"); assistant_msg (lit "Top ")].
Proof.
  destruct (tick_replaces_transcript mid_reply 0
              (mkTyping (greeting ++ [user_msg (lit "news?")]) (lit "Top") 3
                 (lit "Top story") answered) eq_refl)
    as (w' & Hstep & _ & Hm & _).
  exists w'. split; [exact Hstep | exact Hm].
Defined.

(** X16. On every page a run reaches, a click on "Reset session" posts a
    clear request and changes nothing yet; the page is reset when that
    request settles, whatever its outcome: then the transcript and the
    error are empty and the session id is the generated one, in the state
    and in [localStorage], while the input text, the loading flag, the
    chat requests in flight and the armed timers are left as they are. *)
Theorem reset_waits_for_clear (ls : option jsstring) (m : N) (tr : list Event)
    (w : World) (auth : list Message) (m1 m2 : N) (f : Fetched) :
  run (boot ls m) [] tr = Some (w, auth) ->
  step w (ResetClick m1) =
    Some (mkWorld (client w) (history_pending w) (sends w) (timers w)
            (S (clears w)))
  /\ step (mkWorld (client w) (history_pending w) (sends w) (timers w)
             (S (clears w))) (ClearSettled f m2) =
       Some (mkWorld
               (mkClient (newSessionId m2) [] (input (client w))
                  (loading (client w)) [] (Some (newSessionId m2)))
               (history_pending w) (sends w) (timers w) (clears w)).
Proof.
  intros Hrun.
  pose proof (run_keeps session_kept (fun _ => True)
                (fun w0 e w1 H _ => step_session_kept w0 e w1 H)
                tr (boot ls m) [] w auth (boot_session_kept ls m)
                (Forall_any_event tr) Hrun) as [Hs _].
  split; [|reflexivity].
  simpl. unfold js_not. by rewrite bool_decide_eq_false_2.
Qed.

Lemma reset_waits_for_clear_witness :
  step mid_reply (ResetClick 0) =
    Some (mkWorld (client mid_reply) (history_pending mid_reply)
            (sends mid_reply) (timers mid_reply) (S (clears mid_reply))).
Proof.
  apply (reset_waits_for_clear (Some (lit "123456")) 0 taking_turns mid_reply
           greeting 0 0 Rejected).
  vm_compute. reflexivity.
Defined.

(** X17. On every page a run reaches, when the send button is enabled a
    submit posts exactly one chat request, with the current session id and
    the input text as typed (not trimmed); at once the transcript shows
    that text as a user message after what was on display, the error is
    cleared, the loading flag is up and the input still holds the text. *)
Theorem submit_when_enabled (ls : option jsstring) (m : N) (tr : list Event)
    (w : World) (auth : list Message) :
  run (boot ls m) [] tr = Some (w, auth) ->
  view_send_disabled (render (client w)) = false ->
  step w Submit =
    Some (mkWorld
            (mkClient (sessionId (client w))
               (messages (client w) ++ [user_msg (input (client w))])
               (input (client w)) true [] (stored (client w)))
            (history_pending w)
            [mkSending (messages (client w))
               (messages (client w) ++ [user_msg (input (client w))])
               (sessionId (client w)) (input (client w))]
            (timers w) (clears w)).
Proof.
  intros Hrun Hen.
  pose proof (run_keeps session_kept (fun _ => True)
                (fun w0 e w1 H _ => step_session_kept w0 e w1 H)
                tr (boot ls m) [] w auth (boot_session_kept ls m)
                (Forall_any_event tr) Hrun) as [Hs _].
  pose proof (run_keeps one_request (fun _ => True)
                (fun w0 e w1 H _ => step_one_request w0 e w1 H)
                tr (boot ls m) [] w auth (boot_one_request ls m)
                (Forall_any_event tr) Hrun) as Hone.
  simpl in Hen. simpl. rewrite Hen.
  unfold send_disabled in Hen. apply orb_false_elim in Hen as [Hl Hi].
  destruct Hone as [[Hsends _]|(c & _ & Hc)]; [|congruence].
  unfold js_not in Hi. apply bool_decide_eq_false_1 in Hi.
  rewrite (handleSend_submit_passes (client w) Hi Hs).
  unfold state_of, request_of. simpl. rewrite Hsends. reflexivity.
Qed.

Lemma submit_when_enabled_witness :
  step (with_client (setInput (lit " hi ") (client (boot None 0)))
          (boot None 0)) Submit =
    Some (mkWorld
            (mkClient (lit "100000") [user_msg (lit " hi ")] (lit " hi ") true
               [] (Some (lit "100000")))
            true
            [mkSending [] [user_msg (lit " hi ")] (lit "100000") (lit " hi ")]
            [] 0).
Proof.
  pose proof (submit_when_enabled None 0 [Typed (lit " hi ")]
                (with_client (setInput (lit " hi ") (client (boot None 0)))
                   (boot None 0)) []) as H.
  vm_compute in H |- *. apply H; reflexivity.
Defined.

(** ** What the page shows *)

Lemma run_in_turn_run (tr : list Event) (w : World) (auth : list Message)
    (r : World * list Message) :
  run_in_turn w auth tr = Some r -> run w auth tr = Some r.
Proof.
  revert w auth. induction tr as [|e tr IH]; intros w auth Hrun;
    [exact Hrun|].
  simpl in Hrun |- *. destruct (in_turn w e); [|discriminate].
  destruct (step w e) as [w1|]; [|discriminate].
  simpl in Hrun |- *. by apply IH.
Qed.

(** X18. On a page whose operations take turns (a send starts only when
    nothing is outstanding, a reset only when no send is in flight or being
    animated), whenever an animation timer is armed the page shows the rows
    of the last settled transcript, then one row labelled "You", then one
    row labelled "Bot" that holds the first [index] characters of the
    reply of that timer. *)
Theorem rows_while_typing (ls : option jsstring) (m : N) (tr : list Event)
    (w : World) (auth : list Message) (t : Typing) :
  run_in_turn (boot ls m) [] tr = Some (w, auth) ->
  t ∈ timers w ->
  exists u,
    view_rows (render (client w)) =
      (render_row <$> auth)
        ++ [ mkRow true (lit "You") u;
             mkRow false (lit "Bot") (take (ty_index t) (ty_fullText t)) ].
Proof.
  intros Hrun Ht.
  pose proof (run_in_turn_orderly tr _ _ _ _ (boot_orderly ls m) Hrun) as Hw.
  pose proof (run_keeps (fun w0 => Forall timer_ok (timers w0))
                (fun _ => True)
                (fun w0 e w1 H _ => step_timers_ok w0 e w1 H)
                tr (boot ls m) [] w auth (Forall_nil_2 _)
                (Forall_any_event tr) (run_in_turn_run _ _ _ _ Hrun)) as Hok.
  destruct Hw as [_ Hts _|c _ Hts _ _ _ _ _|t0 u _ Hts _ _ Ho Hm];
    rewrite Hts in Ht; try (by apply elem_of_nil in Ht).
  apply list_elem_of_singleton in Ht as ->.
  cbv beta in Hok. rewrite Hts in Hok.
  apply Forall_singleton in Hok as (Htyped & _).
  exists u. unfold render. simpl. rewrite Hm, Ho, <- Htyped.
  rewrite !fmap_app, <- app_assoc. reflexivity.
Qed.

Lemma rows_while_typing_witness :
  exists u,
    view_rows (render (client mid_reply)) =
      (render_row <$> greeting)
        ++ [ mkRow true (lit "You") u; mkRow false (lit "Bot") (lit "Top") ].
Proof.
  apply (rows_while_typing (Some (lit "123456")) 0 taking_turns mid_reply
           greeting
           (mkTyping (greeting ++ [user_msg (lit "news?")]) (lit "Top") 3
              (lit "Top story") answered)).
  - vm_compute. reflexivity.
  - vm_compute. constructor.
Defined.

(** X19. The page right after loading, whatever [localStorage] held: the
    empty-state hint is shown, there is no row, no "Bot is thinking" line
    and no error box, the input is empty and the send button is disabled,
    and the history of the session in the header is being fetched. *)
Theorem page_after_loading (ls : option jsstring) (m : N) :
  render (client (boot ls m)) =
    mkView (sessionId (client (boot ls m))) true [] false None [] true
  /\ history_pending (boot ls m) = true
  /\ sends (boot ls m) = [] /\ timers (boot ls m) = []
  /\ sessionId (client (boot ls m)) =
       match ls with
       | Some v => if decide (v = []) then newSessionId m else v
       | None => newSessionId m
       end.
Proof.
  unfold boot, mount_effect, render, send_disabled, js_not. run_act.
  destruct ls as [v|]; simpl.
  - destruct (decide (v = [])) as [->|Hv]; simpl; [by repeat split|].
    rewrite bool_decide_eq_false_2 by exact Hv. by repeat split.
  - by repeat split.
Qed.

(** ** The end of the animations *)

Lemma ticks_total_cons (t : Typing) (ts : list Typing) :
  ticks_total (t :: ts) =
    (S (length (ty_fullText t) - ty_index t) + ticks_total ts)%nat.
Proof. reflexivity. Qed.

Lemma run_ticks_out (n : nat) (w : World) (auth : list Message) :
  ticks_total (timers w) = n ->
  exists w' auth',
    run w auth (replicate n (Tick 0)) = Some (w', auth')
    /\ timers w' = [] /\ sends w' = sends w
    /\ forall t, last (timers w) = Some t ->
                 messages (client w') = ty_fullHistory t.
Proof.
  revert w auth. induction n as [|n IH]; intros w auth Hn.
  - exists w, auth.
    destruct (timers w) as [|t ts]; [|discriminate].
    repeat split. discriminate.
  - destruct (timers w) as [|t ts] eqn:Hts; [discriminate|].
    rewrite ticks_total_cons in Hn.
    simpl replicate. cbn [run]. simpl step. rewrite Hts. simpl.
    destruct (ty_fullText t !! ty_index t) as [ch|] eqn:E.
    + rewrite (typeNextChar_types t ch _ E). simpl.
      apply lookup_lt_Some in E as Hlt.
      match goal with
      | |- context [run ?w1 ?a1 _] => destruct (IH w1 a1) as (w' & a' & H)
      end.
      { simpl timers. rewrite ticks_total_cons. simpl. lia. }
      exists w', a'. simpl in H. destruct H as (Hrun & Ht & Hs & Hl).
      repeat split; try assumption.
      intros t0 Ht0. destruct ts as [|t1 ts'].
      * injection Ht0 as <-. exact (Hl _ eq_refl).
      * apply Hl. exact Ht0.
    + rewrite (typeNextChar_done t _ E). simpl.
      apply lookup_ge_None in E as Hge.
      match goal with
      | |- context [run ?w1 ?a1 _] => destruct (IH w1 a1) as (w' & a' & H)
      end.
      { simpl timers. lia. }
      exists w', a'. simpl in H. destruct H as (Hrun & Ht & Hs & Hl).
      repeat split; try assumption.
      intros t0 Ht0. destruct ts as [|t1 ts'].
      * injection Ht0 as <-. destruct n; [|discriminate].
        simpl in Hrun. injection Hrun as <- _. reflexivity.
      * apply Hl. exact Ht0.
Qed.

Lemma ticks_total_insert (ts : list Typing) (j : nat) (t t' : Typing) :
  ts !! j = Some t ->
  (ticks_total (<[j:=t']> ts) + S (length (ty_fullText t) - ty_index t) =
   ticks_total ts + S (length (ty_fullText t') - ty_index t'))%nat.
Proof.
  revert j. induction ts as [|t0 ts IH]; intros [|j] Hj; try discriminate.
  - injection Hj as ->. simpl insert. rewrite !ticks_total_cons. lia.
  - simpl insert. rewrite !ticks_total_cons. specialize (IH j Hj). lia.
Qed.

Lemma ticks_total_delete (ts : list Typing) (j : nat) (t : Typing) :
  ts !! j = Some t ->
  (ticks_total (delete j ts) + S (length (ty_fullText t) - ty_index t) =
   ticks_total ts)%nat.
Proof.
  revert j. induction ts as [|t0 ts IH]; intros [|j] Hj; try discriminate.
  - injection Hj as ->. simpl delete. rewrite ticks_total_cons. lia.
  - simpl delete. rewrite !ticks_total_cons. specialize (IH j Hj). lia.
Qed.

(** A firing takes exactly one off the firings left. *)
Lemma step_tick_total (w : World) (j : nat) (w' : World) :
  step w (Tick j) = Some w' ->
  (ticks_total (timers w') + 1 = ticks_total (timers w))%nat
  /\ sends w' = sends w.
Proof.
  intros Hstep. simpl in Hstep.
  destruct (timers w !! j) as [t|] eqn:Hj; [|discriminate].
  simpl in Hstep. injection Hstep as <-. simpl. split; [|reflexivity].
  destruct (ty_fullText t !! ty_index t) as [ch|] eqn:E.
  - rewrite (typeNextChar_types t ch _ E). simpl.
    apply lookup_lt_Some in E.
    pose proof (ticks_total_insert (timers w) j t
                  (mkTyping (ty_optimistic t) (ty_typed t ++ [ch])
                     (S (ty_index t)) (ty_fullText t) (ty_fullHistory t)) Hj)
      as H.
    simpl in H. lia.
  - rewrite (typeNextChar_done t _ E). simpl.
    apply lookup_ge_None in E.
    pose proof (ticks_total_delete (timers w) j t Hj) as H. lia.
Qed.

Lemma run_ticks_total (js : list nat) (w : World) (auth : list Message)
    (w' : World) (auth' : list Message) :
  run w auth (Tick <$> js) = Some (w', auth') ->
  (ticks_total (timers w') + length js = ticks_total (timers w))%nat
  /\ sends w' = sends w.
Proof.
  revert w auth. induction js as [|j js IH]; intros w auth Hrun.
  - injection Hrun as <- _. split; [simpl; lia | reflexivity].
  - rewrite fmap_cons in Hrun. cbn [run] in Hrun.
    destruct (step w (Tick j)) as [w1|] eqn:Hstep; [|discriminate].
    cbn [mbind option_bind] in Hrun.
    destruct (step_tick_total w j w1 Hstep) as [H1 H2].
    destruct (IH w1 _ Hrun) as [H3 H4].
    split; [simpl; lia | congruence].
Qed.

(** X20. Every animation ends, in whatever order the timers fire: a firing
    takes exactly one off the count of characters left plus one, summed
    over the armed timers, so a sequence of firings is never longer than
    that count, and after that many firings no timer is armed; the
    sequence that fires the first timer each time runs that long; and
    firings leave the chat requests in flight as they are. *)
Theorem animations_always_end (w : World) (auth : list Message) :
  (forall js w' auth',
     run w auth (Tick <$> js) = Some (w', auth') ->
     (ticks_total (timers w') + length js = ticks_total (timers w))%nat
     /\ sends w' = sends w
     /\ (length js = ticks_total (timers w) -> timers w' = []))
  /\ exists w' auth',
       run w auth (replicate (ticks_total (timers w)) (Tick 0))
         = Some (w', auth')
       /\ timers w' = [].
Proof.
  split.
  - intros js w' auth' Hrun.
    destruct (run_ticks_total js w auth w' auth' Hrun) as [H1 H2].
    repeat split; [exact H1 | exact H2 |].
    intros Hlen. destruct (timers w') as [|t ts]; [reflexivity|].
    rewrite ticks_total_cons in H1. lia.
  - destruct (run_ticks_out (ticks_total (timers w)) w auth eq_refl)
      as (w' & auth' & Hrun & Ht & _).
    exists w', auth'. auto.
Qed.
